(** * The ranked index of [leader_board/logic/leader_board_logic.go]

    A shallow embedding of [LeaderboardService]: the identity map
    [players], the ordered slice [ranking], the update operation and
    the five read queries, followed by the properties of the ranked
    index stated in the specification.

    Conventions of the embedding.
    - [*model.PlayerEntry] pointers are locations into an explicit
      store [heap]; the map and the slice hold locations, so that the
      in-place writes [entry.Score = score] of [UpdateScore] are seen
      through every alias, and [e == entry] is equality of locations.
    - Go's [int] is the 64-bit two's-complement integer of the usual
      targets (amd64, arm64); arithmetic that involves an integer
      supplied by the caller is wrapped by [wrap].  Positions and
      ranks derived from a slice are bounded by its length, which
      always fits an [int], and are left unwrapped.
    - [make([]model.RankInfo, 0, c)] panics at run time when [c] is
      negative (Go language specification, "Making slices, maps and
      channels") and when the [c] elements of 40 bytes exceed what
      [runtime.makeslice] accepts, [maxAlloc = 2^48] bytes on 64-bit
      Linux; indexing a slice out of range panics as well.  These are
      the [Panic] outcome.  Exhaustion of memory below that limit is
      not modelled.  [make([]int, len(lb.ranking))] asks for as many
      words as the slice [lb.ranking] already holds, which
      [runtime.makeslice] accepts whenever that slice exists; it is
      modelled as returning.
    - The mutex [mu] is omitted: every operation is modelled as the
      atomic transaction it is under the lock. *)

From Stdlib Require Import ZArith Lia.
From stdpp Require Import base option list sorting strings gmap.

Local Open Scope Z_scope.

(** ** Results of a call *)

(** A call either returns a value or panics. *)
Inductive outcome (A : Type) : Type :=
  | Ret (a : A)
  | Panic.
Arguments Ret {A} a.
Arguments Panic {A}.

(** A Go slice value: the [nil] slice, or a non-nil slice with its
    elements. *)
Inductive slice (A : Type) : Type :=
  | NilSlice
  | Slice (elems : list A).
Arguments NilSlice {A}.
Arguments Slice {A} elems.

(** Sequencing: a panic ends the call. *)
#[global] Instance outcome_bind : MBind outcome := λ A B k m,
  match m with
  | Ret a => k a
  | Panic => Panic
  end.

(** ** Machine integers *)

Definition min_int : Z := - 2 ^ 63.
Definition max_int : Z := 2 ^ 63 - 1.

(** Two's-complement wrap-around of a 64-bit signed result. *)
Definition wrap (z : Z) : Z := (z + 2 ^ 63) mod 2 ^ 64 - 2 ^ 63.

(** The limit of [runtime.makeslice] on the bytes of a slice
    ([maxAlloc], 64-bit Linux), and the size of a [model.RankInfo]: a
    string header of 16 bytes and three words of 8. *)
Definition maxAlloc : Z := 2 ^ 48.
Definition RankInfo_size : Z := 40.

(** The largest capacity [make([]model.RankInfo, 0, c)] accepts. *)
Definition max_cap : Z := maxAlloc / RankInfo_size.

(** [make([]model.RankInfo, 0, c)]: [runtime.makeslice] panics when the
    capacity is negative and when its bytes exceed [maxAlloc]. *)
Definition make_cap (c : Z) : outcome unit :=
  if (c <? 0) || (maxAlloc <? RankInfo_size * c) then Panic else Ret tt.

(** ** Data model (package [model]) *)

Record PlayerEntry : Type := mkPlayerEntry {
  PlayerID : string;
  Score : Z;
  Timestamp : Z
}.

Record RankInfo : Type := mkRankInfo {
  riPlayerID : string;
  riScore : Z;
  riRank : Z;
  riTimestamp : Z
}.

(** A [*model.PlayerEntry]: an index of the store. *)
Abbreviation loc := nat (only parsing).

Record LeaderboardService : Type := mkLB {
  heap : list PlayerEntry;
  players : gmap string loc;
  ranking : list loc
}.

(** Dereference of an entry pointer.  Every location handed out by
    [UpdateScore] is allocated (see [wf_alloc]); the default is never
    read on a reachable state. *)
Definition deref (h : list PlayerEntry) (l : loc) : PlayerEntry :=
  default (mkPlayerEntry "" 0 0) (h !! l).

(** The [RankInfo] literal built by every query. *)
Definition rankInfo (e : PlayerEntry) (rank : Z) : RankInfo :=
  mkRankInfo (PlayerID e) (Score e) rank (Timestamp e).

Definition NewLeaderboardService : LeaderboardService :=
  mkLB [] ∅ [].

(** ** [sort.Search] *)

(** The loop of [sort.Search]: [i, j := 0, n; for i < j { h := (i+j)/2;
    if !f(h) { i = h + 1 } else { j = h } }; return i].  The interval
    shrinks at every turn, so [j - i] turns are enough; [Search] gives
    it [n]. *)
Fixpoint Search_loop (fuel : nat) (f : nat → bool) (i j : nat) : nat :=
  match fuel with
  | O => i
  | S fuel' =>
      if (i <? j)%nat then
        let h := ((i + j) / 2)%nat in
        if negb (f h) then Search_loop fuel' f (h + 1)%nat j
        else Search_loop fuel' f i h
      else i
  end.

Definition Search (n : nat) (f : nat → bool) : nat :=
  Search_loop n f 0%nat n.

(** ** Maintenance of the ordered slice *)

(** The closure passed to [sort.Search] by [insertToRanking], on the
    element [x = lb.ranking[i]]: [x] must come after [entry]. *)
Definition after (x entry : PlayerEntry) : bool :=
  if Score x <? Score entry then true
  else if Score x =? Score entry then Timestamp entry <? Timestamp x
  else false.

Definition insertPred (h : list PlayerEntry) (r : list loc) (entry : loc)
    (i : nat) : bool :=
  match r !! i with
  | Some x => after (deref h x) (deref h entry)
  | None => false
  end.

(** [append(r, nil); copy(r[idx+1:], r[idx:]); r[idx] = entry]: the
    tail from [idx] moves one place up and [entry] takes place
    [idx]. *)
Definition insertAt (idx : nat) (entry : loc) (r : list loc) : list loc :=
  take idx r ++ entry :: drop idx r.

Definition insertToRanking (lb : LeaderboardService) (entry : loc)
    : LeaderboardService :=
  let idx := Search (length (ranking lb))
                    (insertPred (heap lb) (ranking lb) entry) in
  mkLB (heap lb) (players lb) (insertAt idx entry (ranking lb)).

(** [removeFromRanking]: the first element equal to [entry] is cut
    out; nothing happens when there is none. *)
Fixpoint removeFromRanking (entry : loc) (r : list loc) : list loc :=
  match r with
  | [] => []
  | e :: r' =>
      if decide (e = entry) then r' else e :: removeFromRanking entry r'
  end.

(** [findRank]: the 0-based position of [entry], or [-1]. *)
Fixpoint findRank_from (i : Z) (entry : loc) (r : list loc) : Z :=
  match r with
  | [] => -1
  | e :: r' =>
      if decide (e = entry) then i else findRank_from (i + 1) entry r'
  end.

Definition findRank (lb : LeaderboardService) (entry : loc) : Z :=
  findRank_from 0 entry (ranking lb).

(** ** [UpdateScore] *)

(** [entry.Score = score; entry.Timestamp = timestamp]. *)
Definition setScore (score timestamp : Z) (e : PlayerEntry) : PlayerEntry :=
  mkPlayerEntry (PlayerID e) score timestamp.

Definition UpdateScore (lb : LeaderboardService) (playerId : string)
    (score timestamp : Z) : LeaderboardService :=
  match players lb !! playerId with
  | Some entry =>
      insertToRanking
        (mkLB (alter (setScore score timestamp) entry (heap lb))
              (players lb)
              (removeFromRanking entry (ranking lb)))
        entry
  | None =>
      let entry := length (heap lb) in
      insertToRanking
        (mkLB (heap lb ++ [mkPlayerEntry playerId score timestamp])
              (<[playerId := entry]> (players lb))
              (ranking lb))
        entry
  end.

(** ** Standard-rank queries *)

(** [nil] (here [None]) for an unknown player. *)
Definition GetPlayerRank (lb : LeaderboardService) (playerId : string)
    : option RankInfo :=
  match players lb !! playerId with
  | None => None
  | Some entry =>
      let rank := findRank lb entry in
      Some (rankInfo (deref (heap lb) entry) (rank + 1))
  end.

(** The loop [for i := 0; i < n && i < len(lb.ranking); i++] of
    [GetTopN], on the part of the slice from position [i] on. *)
Fixpoint GetTopN_loop (h : list PlayerEntry) (n i : Z) (rest : list loc)
    : list RankInfo :=
  match rest with
  | [] => []
  | entry :: rest' =>
      if i <? n then
        rankInfo (deref h entry) (i + 1) :: GetTopN_loop h n (i + 1) rest'
      else []
  end.

Definition GetTopN (lb : LeaderboardService) (n : Z)
    : outcome (list RankInfo) :=
  _ ← make_cap n;
  Ret (GetTopN_loop (heap lb) n 0 (ranking lb)).

(** The loop [for i := start; i <= end; i++] of [GetPlayerRankRange]
    with [cnt] turns left; [lb.ranking[i]] panics out of range. *)
Fixpoint range_loop (h : list PlayerEntry) (r : list loc) (cnt : nat)
    (i : Z) : outcome (list RankInfo) :=
  match cnt with
  | O => Ret []
  | S cnt' =>
      match (if i <? 0 then None else r !! Z.to_nat i) with
      | None => Panic
      | Some e =>
          rest ← range_loop h r cnt' (i + 1);
          Ret (rankInfo (deref h e) (i + 1) :: rest)
      end
  end.

Definition GetPlayerRankRange (lb : LeaderboardService) (playerId : string)
    (rng : Z) : outcome (slice RankInfo) :=
  match players lb !! playerId with
  | None => Ret NilSlice
  | Some entry =>
      let rank := findRank lb entry in
      let start := wrap (rank - rng) in
      let start := if start <? 0 then 0 else start in
      let end_ := wrap (rank + rng) in
      let end_ := if end_ >=? Z.of_nat (length (ranking lb))
                  then Z.of_nat (length (ranking lb)) - 1 else end_ in
      _ ← make_cap (wrap (wrap (end_ - start) + 1));
      res ← range_loop (heap lb) (ranking lb)
                       (Z.to_nat (end_ - start + 1)) start;
      Ret (Slice res)
  end.

(** ** Dense-rank queries *)

(** The body shared by the three dense-rank loops:
    [if i == 0 || e.Score != prevScore { if i != 0 { rank++ };
    prevScore = e.Score }], as the new [(rank, prevScore)]. *)
Definition denseStep (i rank prevScore score : Z) : Z * Z :=
  if (i =? 0) || negb (score =? prevScore) then
    ((if negb (i =? 0) then rank + 1 else rank), score)
  else (rank, prevScore).

(** The loop of [findDenseRank] on the part of the slice from position
    [i] on: the dense rank at the first place that holds [entry], and
    [-1] when the slice ends without it. *)
Fixpoint findDenseRank_loop (h : list PlayerEntry) (entry : loc)
    (i rank prevScore : Z) (rest : list loc) : Z :=
  match rest with
  | [] => -1
  | e :: rest' =>
      let '(rank', prev') := denseStep i rank prevScore (Score (deref h e)) in
      if decide (e = entry) then rank'
      else findDenseRank_loop h entry (i + 1) rank' prev' rest'
  end.

Definition findDenseRank (lb : LeaderboardService) (entry : loc) : Z :=
  findDenseRank_loop (heap lb) entry 0 1 (-1) (ranking lb).

Fixpoint GetDenseTopN_loop (h : list PlayerEntry) (n i rank prevScore : Z)
    (rest : list loc) : list RankInfo :=
  match rest with
  | [] => []
  | entry :: rest' =>
      if i <? n then
        let '(rank', prev') :=
          denseStep i rank prevScore (Score (deref h entry)) in
        rankInfo (deref h entry) rank'
          :: GetDenseTopN_loop h n (i + 1) rank' prev' rest'
      else []
  end.

Definition GetDenseTopN (lb : LeaderboardService) (n : Z)
    : outcome (list RankInfo) :=
  _ ← make_cap n;
  Ret (GetDenseTopN_loop (heap lb) n 0 1 (-1) (ranking lb)).

(** The first loop of [GetPlayerDenseRankRange]: the slice
    [denseRanks]. *)
Fixpoint denseRanks_loop (h : list PlayerEntry) (i rank prevScore : Z)
    (rest : list loc) : list Z :=
  match rest with
  | [] => []
  | e :: rest' =>
      let '(rank', prev') := denseStep i rank prevScore (Score (deref h e)) in
      rank' :: denseRanks_loop h (i + 1) rank' prev' rest'
  end.

Definition denseRanks (lb : LeaderboardService) : list Z :=
  denseRanks_loop (heap lb) 0 1 (-1) (ranking lb).

(** The second loop: [denseRanks[i]] at the first [i] with
    [lb.ranking[i] == entry], and [0] when there is none. *)
Fixpoint playerDenseRank (entry : loc) (r : list loc) (dr : list Z) : Z :=
  match r, dr with
  | e :: r', d :: dr' =>
      if decide (e = entry) then d else playerDenseRank entry r' dr'
  | _, _ => 0
  end.

(** The third loop: the entries whose dense rank is in the band. *)
Fixpoint band_loop (h : list PlayerEntry) (lo hi : Z) (r : list loc)
    (dr : list Z) : list RankInfo :=
  match r, dr with
  | e :: r', d :: dr' =>
      if (d >=? lo) && (d <=? hi) then
        rankInfo (deref h e) d :: band_loop h lo hi r' dr'
      else band_loop h lo hi r' dr'
  | _, _ => []
  end.

Definition GetPlayerDenseRankRange (lb : LeaderboardService)
    (playerId : string) (rng : Z) : outcome (slice RankInfo) :=
  match players lb !! playerId with
  | None => Ret NilSlice
  | Some entry =>
      let dr := denseRanks lb in
      let pdr := playerDenseRank entry (ranking lb) dr in
      _ ← make_cap (wrap (wrap (2 * rng) + 1));
      Ret (Slice (band_loop (heap lb) (wrap (pdr - rng)) (wrap (pdr + rng))
                            (ranking lb) dr))
  end.

(** ** Histories of updates *)

(** One call [UpdateScore(playerId, score, timestamp)]. *)
Definition update : Type := string * Z * Z.

Definition apply_update (lb : LeaderboardService) (u : update)
    : LeaderboardService :=
  let '(p, s, t) := u in UpdateScore lb p s t.

(** The index after the calls of [us], in order, on a new service. *)
Definition replay (us : list update) : LeaderboardService :=
  foldl apply_update NewLeaderboardService us.

Definition reachable (lb : LeaderboardService) : Prop :=
  ∃ us, lb = replay us.

Definition ids (us : list update) : list string := (λ u, u.1.1) <$> us.

(** ** Vocabulary of the properties *)

(** [ord x y]: [x] may stand before [y] in the ordered slice. *)
Definition ord (x y : PlayerEntry) : Prop :=
  Score y < Score x ∨ (Score x = Score y ∧ Timestamp x ≤ Timestamp y).

(** The ordered slice read through the store. *)
Definition ordl (h : list PlayerEntry) (a b : loc) : Prop :=
  ord (deref h a) (deref h b).

Definition sorted (h : list PlayerEntry) (r : list loc) : Prop :=
  StronglySorted (ordl h) r.

(** The map and the slice describe the same entries: every pointer of
    the map is allocated and points to the entry of its key, the slice
    holds exactly the pointers of the map, and it is sorted. *)
Record wf (lb : LeaderboardService) : Prop := mkWf {
  wf_alloc : ∀ p l, players lb !! p = Some l →
    ∃ e, heap lb !! l = Some e ∧ PlayerID e = p;
  wf_perm : ranking lb ≡ₚ (map_to_list (players lb)).*2;
  wf_sorted : sorted (heap lb) (ranking lb)
}.

(** The player names along the ordered slice. *)
Definition rankingIDs (lb : LeaderboardService) : list string :=
  (λ l, PlayerID (deref (heap lb) l)) <$> ranking lb.

(** The scores along the ordered slice. *)
Definition scoresOf (h : list PlayerEntry) (r : list loc) : list Z :=
  (λ l, Score (deref h l)) <$> r.

Definition scores (lb : LeaderboardService) : list Z :=
  scoresOf (heap lb) (ranking lb).

(** The number of distinct values of a list of scores. *)
Definition distinct (ss : list Z) : Z :=
  Z.of_nat (size (list_to_set ss : gset Z)).

(** The reference dense rank, after the specification: one more than
    the number of distinct score values strictly greater than the score
    [s] of the entry at position [i], among the entries enumerated so
    far (positions [0] to [i]) of the ordered sequence. *)
Definition dense_rank_ref (ss : list Z) (i : nat) (s : Z) : Z :=
  1 + distinct (filter (λ x, s < x) (take (S i) ss)).

(** What the dense-rank loops know after the prefix [pre] of the slice:
    [prevScore] is the score of its last entry and [rank] the number of
    distinct scores in it; before the first turn [rank] is [1]. *)
Definition dense_inv (h : list PlayerEntry) (pre : list loc)
    (rank prev : Z) : Prop :=
  match last pre with
  | None => rank = 1
  | Some l => prev = Score (deref h l) ∧ rank = distinct (scoresOf h pre)
  end.

(** The window of the specification around position [pos]: the places
    [max 0 (pos - rng)] to [min (size - 1) (pos + rng)], both included,
    each entry with its standard rank (place + 1). *)
Definition window_lo (pos : nat) (rng : Z) : nat :=
  Z.to_nat (Z.max 0 (Z.of_nat pos - rng)).

Definition window_hi (lb : LeaderboardService) (pos : nat) (rng : Z) : Z :=
  Z.min (Z.of_nat (length (ranking lb)) - 1) (Z.of_nat pos + rng).

Definition window (lb : LeaderboardService) (pos : nat) (rng : Z)
    : list RankInfo :=
  let lo := window_lo pos rng in
  imap (λ k l, rankInfo (deref (heap lb) l) (Z.of_nat (lo + k) + 1))
       (take (Z.to_nat (window_hi lb pos rng + 1) - lo) (drop lo (ranking lb))).

(** The reference dense rank of every position of the ordered slice. *)
Definition denseRanks_ref (lb : LeaderboardService) : list Z :=
  imap (λ i s, dense_rank_ref (scores lb) i s) (scores lb).

(** The band of the specification: every entry whose dense rank lies in
    [d - rng, d + rng], in the order of the slice, each with its dense
    rank. *)
Definition dense_band (lb : LeaderboardService) (d rng : Z) : list RankInfo :=
  (λ lr, rankInfo (deref (heap lb) lr.1) lr.2) <$>
    filter (λ lr : loc * Z, d - rng ≤ lr.2 ≤ d + rng)
           (zip (ranking lb) (denseRanks_ref lb)).

(** The index after [UpdateScore("A", 100, 1)] and
    [UpdateScore("B", 90, 2)]: "A" has rank 1 and "B" rank 2. *)
Definition two_players : LeaderboardService :=
  replay [("A", 100, 1); ("B", 90, 2)].

(** [x] stands ahead of an entry with score [s] and timestamp [t]: a
    higher score, or the same score and a timestamp that is not
    later. *)
Definition ahead (s t : Z) (x : PlayerEntry) : Prop :=
  s < Score x ∨ (Score x = s ∧ Timestamp x ≤ t).

(** The index after "A" and "B" tie at 100 and "C" has 90. *)
Definition three_players : LeaderboardService :=
  replay [("A", 100, 1); ("B", 100, 2); ("C", 90, 3)].

#[global] Instance ahead_dec (s t : Z) (x : PlayerEntry) :
  Decision (ahead s t x).
Proof. unfold ahead. apply _. Defined.

(** An index as [UpdateScore] has it between [removeFromRanking] and
    [insertToRanking]: the entry of "C", at pointer 2, holds its new
    score and is out of the slice. *)
Definition third_unranked : LeaderboardService :=
  mkLB [mkPlayerEntry "A" 100 1; mkPlayerEntry "B" 90 2;
        mkPlayerEntry "C" 95 3]
       (<["A" := 0%nat]> (<["B" := 1%nat]> (<["C" := 2%nat]> ∅)))
       [0%nat; 1%nat].

(** * Properties *)

(** ** Machine integers *)

Lemma wrap_id (z : Z) : min_int ≤ z ≤ max_int → wrap z = z.
Proof.
  unfold wrap, min_int, max_int. intros Hz.
  rewrite Z.mod_small by lia. lia.
Qed.

Lemma wrap_range (z : Z) : min_int ≤ wrap z ≤ max_int.
Proof.
  unfold wrap, min_int, max_int.
  pose proof (Z.mod_pos_bound (z + 2 ^ 63) (2 ^ 64) ltac:(lia)). lia.
Qed.

Lemma max_cap_val : max_cap = 7036874417766.
Proof. reflexivity. Qed.

Lemma make_cap_Ret (c : Z) : 0 ≤ c → c ≤ max_cap → make_cap c = Ret tt.
Proof.
  unfold make_cap, max_cap, maxAlloc, RankInfo_size. intros H0 Hc.
  assert (2 ^ 48 / 40 = 7036874417766) as Hq by reflexivity.
  rewrite Hq in Hc.
  destruct (Z.ltb_spec c 0) as [|_]; [lia|].
  by destruct (Z.ltb_spec (2 ^ 48) (40 * c)) as [|_]; [lia|].
Qed.

Lemma make_cap_Panic (c : Z) : c < 0 ∨ max_cap < c → make_cap c = Panic.
Proof.
  unfold make_cap, max_cap, maxAlloc, RankInfo_size. intros Hc.
  assert (2 ^ 48 / 40 = 7036874417766) as Hq by reflexivity.
  rewrite Hq in Hc.
  destruct (Z.ltb_spec c 0) as [|H0]; [done|].
  by destruct (Z.ltb_spec (2 ^ 48) (40 * c)) as [|]; [|lia].
Qed.

Lemma make_cap_inv (c : Z) (u : unit) :
  make_cap c = Ret u → 0 ≤ c ∧ c ≤ max_cap.
Proof.
  intros Hc. destruct (Z.le_gt_cases 0 c) as [H0|H0].
  - destruct (Z.le_gt_cases c max_cap) as [H1|H1]; [done|].
    rewrite make_cap_Panic in Hc by (by right). done.
  - rewrite make_cap_Panic in Hc by (by left). done.
Qed.

(** ** [sort.Search] finds the partition point *)

(** The loop of [sort.Search] ends within [j - i] turns whatever [f]
    is: more fuel than that does not change its result. *)
Lemma Search_loop_fuel (f : nat → bool) (fuel fuel' i j : nat) :
  (j - i ≤ fuel)%nat → (j - i ≤ fuel')%nat →
  Search_loop fuel f i j = Search_loop fuel' f i j.
Proof.
  revert fuel' i j. induction fuel as [|fuel IH]; intros fuel' i j H1 H2.
  - destruct fuel' as [|fuel']; [done|]. cbn [Search_loop].
    by destruct (Nat.ltb_spec i j) as [|_]; [lia|].
  - cbn [Search_loop]. destruct (Nat.ltb_spec i j) as [Hlt|Hge].
    + destruct fuel' as [|fuel']; [lia|]. cbn [Search_loop].
      destruct (Nat.ltb_spec i j) as [_|]; [|lia].
      pose proof (Nat.div_mod_eq (i + j) 2) as Hdiv.
      pose proof (Nat.mod_upper_bound (i + j) 2 ltac:(lia)) as Hmod.
      set (h := ((i + j) / 2)%nat) in *.
      destruct (negb (f h)); apply IH; lia.
    + destruct fuel' as [|fuel']; [done|]. cbn [Search_loop].
      by destruct (Nat.ltb_spec i j) as [|_]; [lia|].
Qed.

Section search.
Variable f : nat → bool.
Variable n : nat.
(** [f] is false on a prefix of [0, n) and true on the rest. *)
Hypothesis f_mono : ∀ a b : nat, (a ≤ b)%nat → (b < n)%nat →
  f a = true → f b = true.

Lemma Search_loop_spec (fuel i j : nat) :
  (j - i ≤ fuel)%nat → (i ≤ j)%nat → (j ≤ n)%nat →
  (∀ a : nat, (a < i)%nat → f a = false) →
  (∀ a : nat, (j ≤ a)%nat → (a < n)%nat → f a = true) →
  let r := Search_loop fuel f i j in
  (i ≤ r)%nat ∧ (r ≤ j)%nat ∧
  (∀ a : nat, (a < r)%nat → f a = false) ∧
  (∀ a : nat, (r ≤ a)%nat → (a < n)%nat → f a = true).
Proof.
  revert i j. induction fuel as [|fuel IH]; intros i j Hfuel Hij Hjn Hlo Hhi.
  - simpl. assert (i = j) by lia. subst. repeat split; auto.
  - cbn [Search_loop]. destruct (Nat.ltb_spec i j) as [Hlt|Hge].
    + pose proof (Nat.div_mod_eq (i + j) 2) as Hdiv.
      pose proof (Nat.mod_upper_bound (i + j) 2 ltac:(lia)) as Hmod.
      set (h := ((i + j) / 2)%nat) in *.
      assert (i ≤ h < j)%nat as [Hih Hhj] by lia.
      destruct (f h) eqn:Hfh; cbn [negb].
      * destruct (IH i h) as (? & ? & ? & ?); [lia..|auto| |].
        { intros a Ha Han. apply (f_mono h a); [lia|lia|done]. }
        repeat split; auto; lia.
      * destruct (IH (h + 1)%nat j) as (? & ? & ? & ?); [lia..| |auto|].
        { intros a Ha. destruct (f a) eqn:Hfa; [|done].
          rewrite (f_mono a h) in Hfh; [done|lia|lia|done]. }
        repeat split; auto; lia.
    + assert (i = j) by lia. subst. repeat split; auto.
Qed.

Lemma Search_spec :
  let r := Search n f in
  (r ≤ n)%nat ∧
  (∀ a : nat, (a < r)%nat → f a = false) ∧
  (∀ a : nat, (r ≤ a)%nat → (a < n)%nat → f a = true).
Proof.
  unfold Search.
  destruct (Search_loop_spec n 0 n) as (? & ? & ? & ?); try lia; auto.
Qed.
End search.

(** ** The comparator *)

Lemma after_false (x e : PlayerEntry) : after x e = false ↔ ord x e.
Proof.
  unfold after, ord.
  destruct (Z.ltb_spec (Score x) (Score e)), (Z.eqb_spec (Score x) (Score e)),
    (Z.ltb_spec (Timestamp e) (Timestamp x)); split; intros; try done; lia.
Qed.

Lemma after_true (x e : PlayerEntry) :
  after x e = true ↔
  Score x < Score e ∨ (Score x = Score e ∧ Timestamp e < Timestamp x).
Proof.
  unfold after.
  destruct (Z.ltb_spec (Score x) (Score e)), (Z.eqb_spec (Score x) (Score e)),
    (Z.ltb_spec (Timestamp e) (Timestamp x)); split; intros; try done; lia.
Qed.

Lemma after_true_ord (x e : PlayerEntry) : after x e = true → ord e x.
Proof. rewrite after_true. unfold ord. lia. Qed.

Lemma after_mono (x y e : PlayerEntry) :
  ord x y → after x e = true → after y e = true.
Proof. rewrite !after_true. unfold ord. lia. Qed.

Lemma StronglySorted_lookup {A} (R : relation A) (l : list A) (i j : nat)
    (x y : A) :
  StronglySorted R l → (i < j)%nat →
  l !! i = Some x → l !! j = Some y → R x y.
Proof.
  intros Hs. revert i j. induction Hs as [|a l Hs IH Hall]; intros i j Hij Hi Hj.
  - done.
  - destruct j as [|j]; [lia|]. simpl in Hj. destruct i as [|i]; simpl in Hi.
    + injection Hi as ->. rewrite Forall_forall in Hall.
      apply Hall. by eapply list_elem_of_lookup_2.
    + apply (IH i j); [lia|done..].
Qed.

Lemma sorted_ext (h h' : list PlayerEntry) (r : list loc) :
  (∀ x, x ∈ r → deref h' x = deref h x) → sorted h r → sorted h' r.
Proof.
  unfold sorted. intros Heq Hs. induction Hs as [|a l Hs IH Hall].
  - constructor.
  - constructor.
    + apply IH. intros x Hx. apply Heq. by right.
    + rewrite Forall_forall in *. intros x Hx. unfold ordl.
      rewrite !Heq; [by apply Hall|by right|by left].
Qed.

(** *** Insertion *)

Lemma insertPred_mono (h : list PlayerEntry) (r : list loc) (e : loc) :
  sorted h r →
  ∀ a b : nat, (a ≤ b)%nat → (b < length r)%nat →
    insertPred h r e a = true → insertPred h r e b = true.
Proof.
  intros Hs a b Hab Hb. unfold insertPred.
  destruct (r !! a) as [x|] eqn:Ha; [|done].
  destruct (lookup_lt_is_Some_2 r b Hb) as [y Hy]. rewrite Hy.
  destruct (decide (a = b)) as [->|Hne]; [congruence|].
  apply after_mono.
  apply (StronglySorted_lookup (ordl h) r a b); [done|lia|done..].
Qed.

(** The place found by the search splits the slice into the entries
    that stay before [e] and those that must follow it. *)
Lemma Search_insert_split (h : list PlayerEntry) (r : list loc) (e : loc) :
  sorted h r →
  let idx := Search (length r) (insertPred h r e) in
  (idx ≤ length r)%nat ∧
  Forall (λ x, after (deref h x) (deref h e) = false) (take idx r) ∧
  Forall (λ x, after (deref h x) (deref h e) = true) (drop idx r).
Proof.
  intros Hs idx.
  destruct (Search_spec (insertPred h r e) (length r)
              (insertPred_mono h r e Hs)) as (Hle & Hlo & Hhi).
  fold idx in Hle, Hlo, Hhi. split; [done|]. split.
  - apply Forall_lookup. intros i x Hi.
    apply lookup_take_Some in Hi as [Hi Hlt].
    specialize (Hlo i Hlt). unfold insertPred in Hlo. by rewrite Hi in Hlo.
  - apply Forall_lookup. intros i x Hi. rewrite lookup_drop in Hi.
    assert (idx + i < length r)%nat as Hlt by (by eapply lookup_lt_Some).
    specialize (Hhi (idx + i)%nat ltac:(lia) Hlt).
    unfold insertPred in Hhi. by rewrite Hi in Hhi.
Qed.

Lemma insertAt_perm (idx : nat) (e : loc) (r : list loc) :
  insertAt idx e r ≡ₚ e :: r.
Proof.
  unfold insertAt. rewrite <- Permutation_middle. by rewrite take_drop.
Qed.

Lemma insertAt_length (idx : nat) (e : loc) (r : list loc) :
  length (insertAt idx e r) = S (length r).
Proof. by rewrite insertAt_perm. Qed.

Lemma insert_sorted (h : list PlayerEntry) (r : list loc) (e : loc) :
  sorted h r →
  sorted h (insertAt (Search (length r) (insertPred h r e)) e r).
Proof.
  intros Hs. destruct (Search_insert_split h r e Hs) as (Hle & Hlo & Hhi).
  set (idx := Search (length r) (insertPred h r e)) in *.
  pose proof Hs as Hs'. unfold sorted in Hs'.
  rewrite <- (take_drop idx r) in Hs'.
  apply StronglySorted_app in Hs' as (Hcross & Hs1 & Hs2).
  rewrite Forall_forall in Hlo, Hhi.
  unfold sorted, insertAt. apply StronglySorted_app_2; [|done|].
  - intros x1 x2 Hx1 Hx2. apply elem_of_cons in Hx2 as [->|Hx2].
    + apply after_false. by apply Hlo.
    + by apply Hcross.
  - constructor; [done|]. apply Forall_forall. intros x Hx.
    apply after_true_ord. by apply Hhi.
Qed.

(** *** Removal *)

Lemma remove_notin (l : loc) (r : list loc) :
  l ∉ r → removeFromRanking l r = r.
Proof.
  induction r as [|e r IH]; [done|]. intros Hnot. simpl.
  destruct (decide (e = l)) as [->|Hne].
  - exfalso. apply Hnot. by left.
  - f_equal. apply IH. intros Hin. apply Hnot. by right.
Qed.

Lemma remove_perm (l : loc) (r : list loc) :
  l ∈ r → l :: removeFromRanking l r ≡ₚ r.
Proof.
  induction r as [|e r IH]; intros Hin; [by apply elem_of_nil in Hin|].
  simpl. destruct (decide (e = l)) as [->|Hne]; [done|].
  apply elem_of_cons in Hin as [->|Hin]; [done|].
  rewrite Permutation_swap. by rewrite IH.
Qed.

Lemma remove_subseteq (l x : loc) (r : list loc) :
  x ∈ removeFromRanking l r → x ∈ r.
Proof.
  induction r as [|e r IH]; [done|]. simpl.
  destruct (decide (e = l)) as [->|Hne].
  - by right.
  - intros [->|Hin]%elem_of_cons; [by left|right; by apply IH].
Qed.

Lemma remove_NoDup_notin (l : loc) (r : list loc) :
  NoDup r → l ∉ removeFromRanking l r.
Proof.
  induction 1 as [|e r Hnot Hnd IH]; simpl.
  - apply not_elem_of_nil.
  - destruct (decide (e = l)) as [->|Hne]; [done|].
    intros [->|Hin]%elem_of_cons; [done|by apply IH].
Qed.

Lemma remove_sorted (h : list PlayerEntry) (l : loc) (r : list loc) :
  sorted h r → sorted h (removeFromRanking l r).
Proof.
  unfold sorted. induction 1 as [|e r Hs IH Hall]; simpl.
  - constructor.
  - destruct (decide (e = l)) as [->|Hne]; [done|].
    constructor; [done|]. rewrite Forall_forall in *.
    intros x Hx. apply Hall. by eapply remove_subseteq.
Qed.

Lemma remove_middle (l : loc) (r1 r2 : list loc) :
  l ∉ r1 → removeFromRanking l (r1 ++ l :: r2) = r1 ++ r2.
Proof.
  induction r1 as [|e r1 IH]; intros Hnot; simpl.
  - by rewrite decide_True.
  - rewrite decide_False.
    + f_equal. apply IH. intros Hin. apply Hnot. by right.
    + intros ->. apply Hnot. by left.
Qed.

Lemma remove_insertAt (idx : nat) (l : loc) (r : list loc) :
  l ∉ r → removeFromRanking l (insertAt idx l r) = r.
Proof.
  intros Hnot. unfold insertAt. rewrite remove_middle.
  - apply take_drop.
  - intros Hin. apply Hnot. by eapply subseteq_take.
Qed.

(** ** The consistency invariant of the index *)

Lemma wf_inj (lb : LeaderboardService) (p q : string) (l : loc) :
  wf lb → players lb !! p = Some l → players lb !! q = Some l → p = q.
Proof.
  intros Hwf Hp Hq.
  destruct (wf_alloc lb Hwf p l Hp) as (e & He & <-).
  destruct (wf_alloc lb Hwf q l Hq) as (e' & He' & <-). congruence.
Qed.

Lemma wf_elem (lb : LeaderboardService) (l : loc) :
  wf lb → l ∈ ranking lb ↔ ∃ p, players lb !! p = Some l.
Proof.
  intros Hwf. rewrite (wf_perm lb Hwf), list_elem_of_fmap. split.
  - intros ([p l'] & -> & Hin). exists p. by apply elem_of_map_to_list.
  - intros (p & Hp). exists (p, l). split; [done|].
    by apply elem_of_map_to_list.
Qed.

Lemma wf_NoDup (lb : LeaderboardService) : wf lb → NoDup (ranking lb).
Proof.
  intros Hwf. rewrite (wf_perm lb Hwf).
  apply NoDup_fmap_2_strong; [|apply NoDup_map_to_list].
  intros [p l] [q l'] Hp Hq Heq. simpl in Heq. subst l'.
  apply elem_of_map_to_list in Hp, Hq. f_equal. by eapply wf_inj.
Qed.

Lemma wf_lt (lb : LeaderboardService) (l : loc) :
  wf lb → l ∈ ranking lb → (l < length (heap lb))%nat.
Proof.
  intros Hwf (p & Hp)%wf_elem; [|done].
  destruct (wf_alloc lb Hwf p l Hp) as (e & He & _).
  by eapply lookup_lt_Some.
Qed.

Lemma wf_length (lb : LeaderboardService) :
  wf lb → length (ranking lb) = size (players lb).
Proof.
  intros Hwf. by rewrite (wf_perm lb Hwf), length_fmap, length_map_to_list.
Qed.

Lemma wf_new : wf NewLeaderboardService.
Proof.
  split; simpl.
  - intros p l Hp. by rewrite lookup_empty in Hp.
  - by rewrite map_to_list_empty.
  - constructor.
Qed.

Lemma deref_alter_ne (f : PlayerEntry → PlayerEntry) (h : list PlayerEntry)
    (l x : loc) :
  x ≠ l → deref (alter f l h) x = deref h x.
Proof. intros Hne. unfold deref. by rewrite list_lookup_alter_ne. Qed.

Lemma deref_app_lt (h : list PlayerEntry) (e : PlayerEntry) (x : loc) :
  (x < length h)%nat → deref (h ++ [e]) x = deref h x.
Proof. intros Hlt. unfold deref. by rewrite lookup_app_l. Qed.

(** [UpdateScore] keeps the invariant. *)
Lemma UpdateScore_wf (lb : LeaderboardService) (p : string) (s t : Z) :
  wf lb → wf (UpdateScore lb p s t).
Proof.
  intros Hwf. unfold UpdateScore.
  destruct (players lb !! p) as [l|] eqn:Hp.
  - (* a known player: remove, write in place, insert again *)
    assert (l ∈ ranking lb) as Hl by (apply wf_elem; eauto).
    pose proof (wf_NoDup lb Hwf) as Hnd.
    split; simpl.
    + intros q l' Hq. destruct (wf_alloc lb Hwf q l' Hq) as (e & He & Hid).
      destruct (decide (l = l')) as [->|Hne].
      * exists (setScore s t e). by rewrite list_lookup_alter_eq, He.
      * exists e. by rewrite list_lookup_alter_ne.
    + rewrite insertAt_perm, remove_perm by done. apply (wf_perm lb Hwf).
    + apply insert_sorted.
      apply (sorted_ext (heap lb)); [|apply remove_sorted, (wf_sorted lb Hwf)].
      intros x Hx. apply deref_alter_ne. intros ->.
      by apply (remove_NoDup_notin l (ranking lb)).
  - (* a new player: allocate, register, insert *)
    split; simpl.
    + intros q l' Hq. destruct (decide (p = q)) as [->|Hne].
      * rewrite lookup_insert_eq in Hq. injection Hq as <-.
        eexists. by rewrite list_lookup_middle.
      * rewrite lookup_insert_ne in Hq by done.
        destruct (wf_alloc lb Hwf q l' Hq) as (e & He & Hid).
        exists e. split; [|done]. rewrite lookup_app_l; [done|].
        by eapply lookup_lt_Some.
    + rewrite insertAt_perm, map_to_list_insert by done.
      rewrite fmap_cons. simpl. by rewrite <- (wf_perm lb Hwf).
    + apply insert_sorted.
      apply (sorted_ext (heap lb)); [|apply (wf_sorted lb Hwf)].
      intros x Hx. apply deref_app_lt. by apply wf_lt.
Qed.

Lemma replay_snoc (us : list update) (u : update) :
  replay (us ++ [u]) = apply_update (replay us) u.
Proof. unfold replay. by rewrite foldl_app. Qed.

Lemma replay_wf (us : list update) : wf (replay us).
Proof.
  induction us as [|[[p s] t] us IH] using rev_ind.
  - apply wf_new.
  - rewrite replay_snoc. simpl. by apply UpdateScore_wf.
Qed.

Lemma reachable_wf (lb : LeaderboardService) : reachable lb → wf lb.
Proof. intros [us ->]. apply replay_wf. Qed.

Lemma reachable_new : reachable NewLeaderboardService.
Proof. by exists []. Qed.

Lemma reachable_UpdateScore (lb : LeaderboardService) (p : string) (s t : Z) :
  reachable lb → reachable (UpdateScore lb p s t).
Proof. intros [us ->]. exists (us ++ [(p, s, t)]). by rewrite replay_snoc. Qed.

(** ** What one update does *)

Lemma alter_fixed {A} (f : A → A) (h : list A) (l : nat) (e : A) :
  h !! l = Some e → f e = e → alter f l h = h.
Proof.
  intros He Hf. apply list_eq. intros i.
  destruct (decide (l = i)) as [<-|Hne].
  - rewrite list_lookup_alter_eq, He. simpl. by rewrite Hf.
  - by rewrite list_lookup_alter_ne.
Qed.

(** After [UpdateScore(p, s, t)] the entry of [p] holds [s] and [t],
    and the slice is the old one without that entry, with the entry put
    back at the place [idx] chosen by the search: every entry before
    [idx] may stay before it, every entry from [idx] on must follow. *)
Lemma UpdateScore_shape (lb : LeaderboardService) (p : string) (s t : Z) :
  wf lb →
  let lb' := UpdateScore lb p s t in
  ∃ (l : loc) (r : list loc) (idx : nat),
    players lb' !! p = Some l ∧
    heap lb' !! l = Some (mkPlayerEntry p s t) ∧
    (l ∉ r) ∧
    (idx ≤ length r)%nat ∧
    lb' = insertToRanking (mkLB (heap lb') (players lb') r) l ∧
    ranking lb' = take idx r ++ l :: drop idx r ∧
    Forall (λ x, after (deref (heap lb') x) (mkPlayerEntry p s t) = false)
           (take idx r) ∧
    Forall (λ x, after (deref (heap lb') x) (mkPlayerEntry p s t) = true)
           (drop idx r).
Proof.
  intros Hwf lb'. subst lb'. unfold UpdateScore.
  destruct (players lb !! p) as [l|] eqn:Hp.
  - destruct (wf_alloc lb Hwf p l Hp) as (e & He & Hid).
    set (h' := alter (setScore s t) l (heap lb)).
    set (r := removeFromRanking l (ranking lb)).
    assert (h' !! l = Some (mkPlayerEntry p s t)) as Hl.
    { unfold h'. rewrite list_lookup_alter_eq, He. simpl.
      unfold setScore. by rewrite Hid. }
    assert (sorted h' r) as Hs.
    { apply (sorted_ext (heap lb)); [|apply remove_sorted, (wf_sorted lb Hwf)].
      intros x Hx. apply deref_alter_ne. intros ->. revert Hx.
      by apply remove_NoDup_notin, wf_NoDup. }
    destruct (Search_insert_split h' r l Hs) as (Hle & Hlo & Hhi).
    exists l, r, (Search (length r) (insertPred h' r l)).
    unfold insertToRanking; simpl.
    assert (deref h' l = mkPlayerEntry p s t) as Hd
      by (unfold deref; by rewrite Hl).
    rewrite Hd in Hlo, Hhi. repeat split; try done.
    by apply remove_NoDup_notin, wf_NoDup.
  - set (h' := heap lb ++ [mkPlayerEntry p s t]).
    set (l := length (heap lb)).
    assert (h' !! l = Some (mkPlayerEntry p s t)) as Hl
      by apply list_lookup_middle, eq_refl.
    assert (sorted h' (ranking lb)) as Hs.
    { apply (sorted_ext (heap lb)); [|apply (wf_sorted lb Hwf)].
      intros x Hx. apply deref_app_lt. by apply wf_lt. }
    destruct (Search_insert_split h' (ranking lb) l Hs) as (Hle & Hlo & Hhi).
    exists l, (ranking lb), (Search (length (ranking lb))
                                    (insertPred h' (ranking lb) l)).
    unfold insertToRanking; simpl.
    assert (deref h' l = mkPlayerEntry p s t) as Hd
      by (unfold deref; by rewrite Hl).
    rewrite Hd in Hlo, Hhi. repeat split; try done.
    + by rewrite lookup_insert_eq.
    + intros Hin. apply (wf_lt lb l Hwf) in Hin. unfold l in Hin. lia.
Qed.

(** A second identical update rebuilds the very same index. *)
Lemma UpdateScore_idem (lb : LeaderboardService) (p : string) (s t : Z) :
  wf lb →
  UpdateScore (UpdateScore lb p s t) p s t = UpdateScore lb p s t.
Proof.
  intros Hwf.
  destruct (UpdateScore_shape lb p s t Hwf)
    as (l & r & idx & Hp & Hl & Hnot & Hle & Hins & Hr & _).
  set (lb1 := UpdateScore lb p s t) in *.
  unfold UpdateScore at 1. rewrite Hp, Hr.
  rewrite (alter_fixed _ _ _ _ Hl) by done.
  change (take idx r ++ l :: drop idx r) with (insertAt idx l r).
  by rewrite remove_insertAt.
Qed.

(** Position of a pointer that occurs in the slice. *)
Lemma findRank_from_middle (i : Z) (l : loc) (r1 r2 : list loc) :
  l ∉ r1 → findRank_from i l (r1 ++ l :: r2) = i + Z.of_nat (length r1).
Proof.
  revert i. induction r1 as [|e r1 IH]; intros i Hnot; simpl.
  - rewrite decide_True by done. lia.
  - rewrite decide_False.
    + rewrite IH; [lia|]. intros Hin. apply Hnot. by right.
    + intros ->. apply Hnot. by left.
Qed.

Lemma findRank_from_lookup (i : Z) (l : loc) (r : list loc) :
  l ∈ r →
  ∃ k : nat, findRank_from i l r = i + Z.of_nat k ∧ r !! k = Some l.
Proof.
  intros Hin. apply list_elem_of_split_l in Hin as (r1 & r2 & -> & Hnot).
  exists (length r1). split; [by apply findRank_from_middle|].
  by apply list_lookup_middle.
Qed.

Lemma NoDup_lookup_eq {A} (l : list A) (i j : nat) (x : A) :
  NoDup l → l !! i = Some x → l !! j = Some x → i = j.
Proof. intros Hnd. apply NoDup_lookup, Hnd. Qed.

(** ** Known players *)

Lemma UpdateScore_dom (lb : LeaderboardService) (p : string) (s t : Z) :
  dom (players (UpdateScore lb p s t)) = {[p]} ∪ dom (players lb).
Proof.
  unfold UpdateScore. destruct (players lb !! p) as [l|] eqn:Hp; simpl.
  - apply elem_of_dom_2 in Hp. set_solver.
  - by rewrite dom_insert_L.
Qed.

Lemma replay_dom (us : list update) :
  dom (players (replay us)) = list_to_set (ids us).
Proof.
  induction us as [|[[p s] t] us IH] using rev_ind.
  - unfold replay. simpl. by rewrite dom_empty_L.
  - rewrite replay_snoc. simpl. rewrite UpdateScore_dom, IH.
    unfold ids. rewrite fmap_app, list_to_set_app_L. simpl. set_solver.
Qed.

Lemma replay_known (us : list update) (p : string) :
  is_Some (players (replay us) !! p) ↔ p ∈ ids us.
Proof. by rewrite <- elem_of_dom, replay_dom, elem_of_list_to_set. Qed.

Lemma replay_unknown (us : list update) (p : string) :
  players (replay us) !! p = None ↔ p ∉ ids us.
Proof. by rewrite <- replay_known, eq_None_not_Some. Qed.

Lemma wf_deref (lb : LeaderboardService) (p : string) (l : loc) :
  wf lb → players lb !! p = Some l → PlayerID (deref (heap lb) l) = p.
Proof.
  intros Hwf Hp. destruct (wf_alloc lb Hwf p l Hp) as (e & He & Hid).
  unfold deref. by rewrite He.
Qed.

Lemma wf_NoDup_ids (lb : LeaderboardService) : wf lb → NoDup (rankingIDs lb).
Proof.
  intros Hwf. apply NoDup_fmap_2_strong; [|by apply wf_NoDup].
  intros l l' (p & Hp)%wf_elem (q & Hq)%wf_elem Heq; try done.
  rewrite (wf_deref lb p l), (wf_deref lb q l') in Heq by done.
  subst q. congruence.
Qed.

(** * The claims *)

(** C1. Sort invariant: after any sequence of [UpdateScore] calls on a
    new index, the entries [x] and [y] at two adjacent positions [i] and
    [i+1] of the ordered slice satisfy [Score x > Score y], or
    [Score x = Score y] and [Timestamp x <= Timestamp y]. *)
Theorem sort_invariant (us : list update) (i : nat) (a b : loc) :
  ranking (replay us) !! i = Some a →
  ranking (replay us) !! S i = Some b →
  ∃ x y : PlayerEntry,
    heap (replay us) !! a = Some x ∧ heap (replay us) !! b = Some y ∧
    (Score x > Score y ∨ (Score x = Score y ∧ Timestamp x ≤ Timestamp y)).
Proof.
  intros Ha Hb. pose proof (replay_wf us) as Hwf.
  assert (∀ k l, ranking (replay us) !! k = Some l →
            ∃ x, heap (replay us) !! l = Some x) as Halloc.
  { intros k l Hk. apply list_elem_of_lookup_2 in Hk.
    apply (wf_lt _ _ Hwf) in Hk. by apply lookup_lt_is_Some_2. }
  destruct (Halloc _ _ Ha) as [x Hx], (Halloc _ _ Hb) as [y Hy].
  exists x, y. split; [done|]. split; [done|].
  pose proof (StronglySorted_lookup _ _ i (S i) a b (wf_sorted _ Hwf)
                ltac:(lia) Ha Hb) as Hord.
  unfold ordl, ord, deref in Hord. rewrite Hx, Hy in Hord. simpl in Hord. lia.
Qed.

Lemma sort_invariant_witness :
  ∃ x y : PlayerEntry,
    heap (replay [("A", 100, 1); ("B", 100, 2); ("C", 90, 3)]) !! 0%nat
      = Some x ∧
    heap (replay [("A", 100, 1); ("B", 100, 2); ("C", 90, 3)]) !! 1%nat
      = Some y ∧
    (Score x > Score y ∨ (Score x = Score y ∧ Timestamp x ≤ Timestamp y)).
Proof.
  apply (sort_invariant [("A", 100, 1); ("B", 100, 2); ("C", 90, 3)]
           0%nat 0%nat 1%nat); reflexivity.
Defined.

(** C8. Population consistency: after any sequence of [UpdateScore]
    calls, the length of the ordered slice is the number of entries of
    the map, which is the number of distinct player names passed to
    [UpdateScore]; no pointer and no player name occurs twice in the
    slice. *)
Theorem population_consistency (us : list update) :
  length (ranking (replay us)) = size (players (replay us)) ∧
  size (players (replay us)) = size (list_to_set (ids us) : gset string) ∧
  NoDup (ranking (replay us)) ∧
  NoDup (rankingIDs (replay us)).
Proof.
  pose proof (replay_wf us) as Hwf. repeat split.
  - by apply wf_length.
  - by rewrite <- replay_dom, size_dom.
  - by apply wf_NoDup.
  - by apply wf_NoDup_ids.
Qed.

(** C3. Idempotent re-update: on a reachable index, a second call
    [UpdateScore(p, s, t)] with the arguments of the first leaves the
    answer of [GetPlayerRank] (rank, score and timestamp) of every
    player, [p] included, and the population size as they were after
    the first call. *)
Theorem idempotent_reupdate (lb : LeaderboardService) (p : string) (s t : Z) :
  reachable lb →
  let lb1 := UpdateScore lb p s t in
  let lb2 := UpdateScore lb1 p s t in
  (∀ q, GetPlayerRank lb2 q = GetPlayerRank lb1 q) ∧
  GetPlayerRank lb1 p ≫= (λ ri, Some (riScore ri)) = Some s ∧
  length (ranking lb2) = length (ranking lb1) ∧
  size (players lb2) = size (players lb1).
Proof.
  intros Hr lb1 lb2. apply reachable_wf in Hr.
  assert (lb2 = lb1) as -> by (by apply UpdateScore_idem).
  repeat split; try done.
  destruct (UpdateScore_shape lb p s t Hr) as (l & r & idx & Hp & Hl & _).
  fold lb1 in Hp, Hl. unfold GetPlayerRank. rewrite Hp. simpl.
  unfold deref. by rewrite Hl.
Qed.

Lemma idempotent_reupdate_witness :
  let lb1 := UpdateScore (replay [("A", 100, 1); ("B", 100, 2)]) "A" 100 2 in
  let lb2 := UpdateScore lb1 "A" 100 2 in
  (∀ q, GetPlayerRank lb2 q = GetPlayerRank lb1 q) ∧
  GetPlayerRank lb1 "A" ≫= (λ ri, Some (riScore ri)) = Some 100 ∧
  length (ranking lb2) = length (ranking lb1) ∧
  size (players lb2) = size (players lb1).
Proof.
  apply (idempotent_reupdate (replay [("A", 100, 1); ("B", 100, 2)])
           "A" 100 2).
  exists [("A", 100, 1); ("B", 100, 2)]. reflexivity.
Defined.



(** ** The not-found signal *)

Lemma GetPlayerRank_None (lb : LeaderboardService) (p : string) :
  GetPlayerRank lb p = None ↔ players lb !! p = None.
Proof. unfold GetPlayerRank. by destruct (players lb !! p). Qed.

Lemma GetPlayerRankRange_nil (lb : LeaderboardService) (p : string) (rng : Z) :
  GetPlayerRankRange lb p rng = Ret NilSlice ↔ players lb !! p = None.
Proof.
  unfold GetPlayerRankRange. destruct (players lb !! p) as [l|]; [|done].
  unfold mbind, outcome_bind.
  destruct (make_cap _) as [[]|]; [|done].
  by destruct (range_loop _ _ _ _).
Qed.

Lemma GetPlayerDenseRankRange_nil (lb : LeaderboardService) (p : string)
    (rng : Z) :
  GetPlayerDenseRankRange lb p rng = Ret NilSlice ↔ players lb !! p = None.
Proof.
  unfold GetPlayerDenseRankRange. destruct (players lb !! p) as [l|]; [|done].
  unfold mbind, outcome_bind. by destruct (make_cap _) as [[]|].
Qed.

(** C7. Unknown player: after any sequence of [UpdateScore] calls, each
    of [GetPlayerRank], [GetPlayerRankRange] and
    [GetPlayerDenseRankRange] answers with its not-found value ([nil])
    exactly for the player names that were never passed to
    [UpdateScore]; for a name that was passed, none of them does,
    whatever [rng] is. *)
Theorem unknown_player (us : list update) (p : string) :
  (GetPlayerRank (replay us) p = None ↔ p ∉ ids us) ∧
  (∀ rng, GetPlayerRankRange (replay us) p rng = Ret NilSlice ↔ p ∉ ids us) ∧
  (∀ rng,
     GetPlayerDenseRankRange (replay us) p rng = Ret NilSlice ↔ p ∉ ids us).
Proof.
  split; [|split]; intros; rewrite <- replay_unknown.
  - apply GetPlayerRank_None.
  - apply GetPlayerRankRange_nil.
  - apply GetPlayerDenseRankRange_nil.
Qed.

(** ** Dense ranks *)

Lemma distinct_snoc_old (ss : list Z) (s : Z) :
  s ∈ ss → distinct (ss ++ [s]) = distinct ss.
Proof.
  intros Hin. unfold distinct. f_equal. f_equal.
  rewrite list_to_set_app_L. simpl. set_solver.
Qed.

Lemma distinct_snoc_new (ss : list Z) (s : Z) :
  s ∉ ss → distinct (ss ++ [s]) = distinct ss + 1.
Proof.
  intros Hnot. unfold distinct.
  rewrite (list_to_set_app_L (C:=gset Z)).
  rewrite (size_union (C:=gset Z)) by set_solver.
  rewrite (size_list_to_set (C:=gset Z) [s]) by (apply NoDup_singleton).
  simpl. lia.
Qed.

(** In a list whose least value is [s], the distinct values are [s] and
    the distinct values above [s]. *)
Lemma distinct_above (ss : list Z) (s : Z) :
  s ∈ ss → (∀ x, x ∈ ss → s ≤ x) →
  distinct ss = 1 + distinct (filter (λ x, s < x) ss).
Proof.
  intros Hin Hmin. unfold distinct.
  assert ((list_to_set ss : gset Z)
          = {[s]} ∪ list_to_set (filter (λ x, s < x) ss)) as ->.
  { apply set_eq. intros x.
    rewrite elem_of_union, elem_of_singleton, !elem_of_list_to_set,
      list_elem_of_filter.
    split.
    - intros Hx. destruct (decide (x = s)) as [->|Hne]; [by left|].
      right. split; [|done]. specialize (Hmin x Hx). lia.
    - intros [->|[_ Hx]]; done. }
  rewrite size_union, size_singleton; [lia|].
  apply disjoint_singleton_l. rewrite elem_of_list_to_set, list_elem_of_filter.
  lia.
Qed.

(** Scores do not increase along a sorted slice. *)
Lemma sorted_snoc_scores (h : list PlayerEntry) (pre : list loc) (e : loc) :
  sorted h (pre ++ [e]) →
  ∀ x, x ∈ scoresOf h pre → Score (deref h e) ≤ x.
Proof.
  intros Hs x (l & -> & Hl)%list_elem_of_fmap.
  assert (ordl h l e) as Hord.
  { eapply (StronglySorted_app_1_elem_of (ordl h)); [done..|by left]. }
  unfold ordl, ord in Hord. lia.
Qed.

Lemma dense_inv_step (h : list PlayerEntry) (pre : list loc) (e : loc)
    (rank prev : Z) :
  sorted h (pre ++ [e]) → dense_inv h pre rank prev →
  let rp := denseStep (Z.of_nat (length pre)) rank prev
                      (Score (deref h e)) in
  dense_inv h (pre ++ [e]) rp.1 rp.2 ∧
  rp.1 = distinct (scoresOf h (pre ++ [e])).
Proof.
  intros Hs Hinv. unfold dense_inv in *. rewrite last_snoc.
  unfold scoresOf in *. rewrite fmap_app. simpl.
  pose proof (sorted_snoc_scores h pre e Hs) as Hmin.
  unfold denseStep. destruct (last pre) as [l0|] eqn:Hlast.
  - destruct Hinv as [-> ->].
    apply last_Some in Hlast as [pre' ->].
    assert (Score (deref h l0) ∈ scoresOf h (pre' ++ [l0])) as Hin0.
    { apply list_elem_of_fmap. exists l0. split; [done|].
      apply elem_of_app. right. by left. }
    rewrite length_app. simpl.
    destruct (Z.eqb_spec (Z.of_nat (length pre' + 1)) 0) as [|_]; [lia|].
    simpl.
    destruct (Z.eqb_spec (Score (deref h e)) (Score (deref h l0)))
      as [Heq|Hne]; simpl.
    + rewrite distinct_snoc_old by (by rewrite Heq). by rewrite Heq.
    + rewrite distinct_snoc_new; [done|].
      intros Hin. specialize (Hmin _ Hin0).
      unfold scoresOf in Hin.
      apply list_elem_of_fmap in Hin as (l & Heq & Hl).
      assert (l ≠ l0 → ordl h l l0) as Hord.
      { intros Hl0. apply elem_of_app in Hl as [Hl|Hl].
        - apply StronglySorted_app_1_l in Hs.
          eapply (StronglySorted_app_1_elem_of (ordl h)); [done..|by left].
        - apply list_elem_of_singleton in Hl. done. }
      destruct (decide (l = l0)) as [->|Hl0]; [lia|].
      specialize (Hord Hl0). unfold ordl, ord in Hord. lia.
  - apply last_None in Hlast as ->. subst rank. simpl.
    unfold distinct.
    by rewrite (size_list_to_set (C:=gset Z)) by (apply NoDup_singleton).
Qed.

Lemma denseRanks_loop_length (h : list PlayerEntry) (i rank prev : Z)
    (rest : list loc) :
  length (denseRanks_loop h i rank prev rest) = length rest.
Proof.
  revert i rank prev. induction rest as [|e rest IH]; intros i rank prev.
  - done.
  - cbn [denseRanks_loop]. destruct (denseStep _ _ _ _) as [rank' prev'].
    simpl. by rewrite IH.
Qed.

Lemma scoresOf_take_snoc (h : list PlayerEntry) (pre rest : list loc)
    (e : loc) :
  take (S (length pre)) (scoresOf h (pre ++ e :: rest))
  = scoresOf h (pre ++ [e]).
Proof.
  unfold scoresOf. rewrite cons_middle, app_assoc, (fmap_app _ (pre ++ [e])).
  apply take_app_length'. rewrite length_fmap, length_app. simpl. lia.
Qed.

(** Every rank written by the loop is the reference dense rank of its
    position. *)
Lemma denseRanks_loop_spec (h : list PlayerEntry) (pre rest : list loc)
    (rank prev : Z) :
  sorted h (pre ++ rest) → dense_inv h pre rank prev →
  ∀ (k : nat) (l : loc), rest !! k = Some l →
    denseRanks_loop h (Z.of_nat (length pre)) rank prev rest !! k
    = Some (dense_rank_ref (scoresOf h (pre ++ rest)) (length pre + k)
                           (Score (deref h l))).
Proof.
  revert pre rank prev.
  induction rest as [|e rest IH]; intros pre rank prev Hs Hinv k l Hk.
  - done.
  - cbn [denseRanks_loop].
    assert (sorted h (pre ++ [e])) as Hs1.
    { unfold sorted in *. rewrite cons_middle, app_assoc in Hs.
      by apply StronglySorted_app_1_l in Hs. }
    destruct (dense_inv_step h pre e rank prev Hs1 Hinv) as [Hinv' Hrank].
    destruct (denseStep _ _ _ _) as [rank' prev']. simpl in Hinv', Hrank.
    destruct k as [|k]; simpl in Hk.
    + injection Hk as <-. simpl. f_equal. unfold dense_rank_ref.
      rewrite Nat.add_0_r, scoresOf_take_snoc, Hrank.
      apply distinct_above.
      * apply list_elem_of_fmap. exists e. split; [done|].
        apply elem_of_app. right. by left.
      * intros x Hx. unfold scoresOf in Hx. rewrite fmap_app in Hx.
        apply elem_of_app in Hx as [Hx|Hx].
        -- by apply (sorted_snoc_scores h pre e).
        -- apply list_elem_of_singleton in Hx. lia.
    + simpl.
      replace (Z.of_nat (length pre) + 1) with (Z.of_nat (length (pre ++ [e])))
        by (rewrite length_app; simpl; lia).
      rewrite (IH (pre ++ [e]) rank' prev' ltac:(by rewrite <- app_assoc)
                 Hinv' k l Hk).
      rewrite <- app_assoc, length_app. simpl.
      by replace (length pre + 1 + k)%nat with (length pre + S k)%nat by lia.
Qed.

Lemma denseRanks_spec (lb : LeaderboardService) (k : nat) (l : loc) :
  wf lb → ranking lb !! k = Some l →
  denseRanks lb !! k
  = Some (dense_rank_ref (scores lb) k (Score (deref (heap lb) l))).
Proof.
  intros Hwf Hk.
  apply (denseRanks_loop_spec (heap lb) [] (ranking lb) 1 (-1)); try done.
  apply (wf_sorted lb Hwf).
Qed.

(** [GetDenseTopN] pairs the first [n] entries with the ranks of the
    dense-rank loop. *)
Lemma GetDenseTopN_loop_zip (h : list PlayerEntry) (n i rank prev : Z)
    (rest : list loc) :
  GetDenseTopN_loop h n i rank prev rest
  = zip_with (λ l d, rankInfo (deref h l) d)
             (take (Z.to_nat (n - i)) rest)
             (denseRanks_loop h i rank prev rest).
Proof.
  revert i rank prev. induction rest as [|e rest IH]; intros i rank prev.
  - by rewrite take_nil.
  - cbn [GetDenseTopN_loop denseRanks_loop].
    destruct (denseStep _ _ _ _) as [rank' prev'].
    destruct (Z.ltb_spec i n) as [Hlt|Hge].
    + replace (Z.to_nat (n - i)) with (S (Z.to_nat (n - (i + 1)))) by lia.
      simpl. by rewrite IH.
    + by replace (Z.to_nat (n - i)) with 0%nat by lia.
Qed.

(** C2. Dense rank of [GetDenseTopN]: on a reachable index the call
    returns for every [n] from [0] to the largest capacity [make]
    accepts, with [min n size] entries, and panics for every other [n];
    whenever it returns, for whatever [n], the entry at position [i] of
    the result is the entry at position [i] of the ordered slice and its
    [Rank] field is the reference dense rank: one more than the number
    of distinct scores strictly greater than its own among the entries
    enumerated so far. *)
Theorem dense_rank_refines (lb : LeaderboardService) (n : Z) :
  reachable lb →
  (0 ≤ n ≤ max_cap → ∃ res, GetDenseTopN lb n = Ret res ∧
     Z.of_nat (length res) = Z.min n (Z.of_nat (length (ranking lb)))) ∧
  (n < 0 ∨ max_cap < n → GetDenseTopN lb n = Panic) ∧
  ∀ (res : list RankInfo) (i : nat) (ri : RankInfo),
    GetDenseTopN lb n = Ret res → res !! i = Some ri →
    ∃ (l : loc) (e : PlayerEntry),
      ranking lb !! i = Some l ∧ heap lb !! l = Some e ∧
      ri = rankInfo e (dense_rank_ref (scores lb) i (Score e)) ∧
      riRank ri = dense_rank_ref (scores lb) i (riScore ri).
Proof.
  intros Hr. apply reachable_wf in Hr. unfold GetDenseTopN.
  split; [|split].
  - intros [Hn Hcap]. rewrite make_cap_Ret by done.
    unfold mbind, outcome_bind. rewrite GetDenseTopN_loop_zip, Z.sub_0_r.
    eexists. split; [done|].
    rewrite length_zip_with, length_take, denseRanks_loop_length. lia.
  - intros Hn. by rewrite make_cap_Panic.
  - intros res i ri Hres Hi.
    destruct (make_cap n) as [[]|]; [|done].
    unfold mbind, outcome_bind in Hres. injection Hres as <-.
    rewrite GetDenseTopN_loop_zip, Z.sub_0_r in Hi.
    apply lookup_zip_with_Some in Hi as (l & d & -> & Hl & Hd).
    apply lookup_take_Some in Hl as [Hl _].
    assert (l ∈ ranking lb) as Hin by (by eapply list_elem_of_lookup_2).
    apply (wf_lt lb l Hr), lookup_lt_is_Some_2 in Hin as [e He].
    exists l, e. split; [done|]. split; [done|].
    fold (denseRanks lb) in Hd. rewrite (denseRanks_spec lb i l Hr Hl) in Hd.
    injection Hd as <-. unfold deref. by rewrite He.
Qed.

Lemma dense_rank_refines_witness :
  (0 ≤ 3 ≤ max_cap → ∃ res,
     GetDenseTopN (replay [("A", 100, 1); ("B", 100, 2); ("C", 90, 3)]) 3
       = Ret res ∧
     Z.of_nat (length res) = Z.min 3 (Z.of_nat (length (ranking
       (replay [("A", 100, 1); ("B", 100, 2); ("C", 90, 3)]))))) ∧
  (3 < 0 ∨ max_cap < 3 →
     GetDenseTopN (replay [("A", 100, 1); ("B", 100, 2); ("C", 90, 3)]) 3
     = Panic) ∧
  ∀ (res : list RankInfo) (i : nat) (ri : RankInfo),
    GetDenseTopN (replay [("A", 100, 1); ("B", 100, 2); ("C", 90, 3)]) 3
      = Ret res →
    res !! i = Some ri →
    ∃ (l : loc) (e : PlayerEntry),
      ranking (replay [("A", 100, 1); ("B", 100, 2); ("C", 90, 3)]) !! i
        = Some l ∧
      heap (replay [("A", 100, 1); ("B", 100, 2); ("C", 90, 3)]) !! l
        = Some e ∧
      ri = rankInfo e (dense_rank_ref
             (scores (replay [("A", 100, 1); ("B", 100, 2); ("C", 90, 3)]))
             i (Score e)) ∧
      riRank ri
      = dense_rank_ref
          (scores (replay [("A", 100, 1); ("B", 100, 2); ("C", 90, 3)]))
          i (riScore ri).
Proof.
  apply (dense_rank_refines
           (replay [("A", 100, 1); ("B", 100, 2); ("C", 90, 3)]) 3).
  exists [("A", 100, 1); ("B", 100, 2); ("C", 90, 3)]. reflexivity.
Defined.

(** ** [GetTopN] *)

Lemma GetTopN_loop_imap (h : list PlayerEntry) (n i : Z) (rest : list loc) :
  GetTopN_loop h n i rest
  = imap (λ k l, rankInfo (deref h l) (i + Z.of_nat k + 1))
         (take (Z.to_nat (n - i)) rest).
Proof.
  revert i. induction rest as [|e rest IH]; intros i.
  - by rewrite take_nil.
  - cbn [GetTopN_loop]. destruct (Z.ltb_spec i n) as [Hlt|Hge].
    + replace (Z.to_nat (n - i)) with (S (Z.to_nat (n - (i + 1)))) by lia.
      rewrite firstn_cons, imap_cons, IH. f_equal.
      * f_equal. lia.
      * apply imap_ext. intros k l _. simpl. f_equal. lia.
    + by replace (Z.to_nat (n - i)) with 0%nat by lia.
Qed.

Lemma GetTopN_negative (lb : LeaderboardService) (n : Z) :
  n < 0 → GetTopN lb n = Panic.
Proof.
  intros Hn. unfold GetTopN. by rewrite make_cap_Panic by (by left).
Qed.

(** For every [n] from [0] to the largest capacity [make] accepts,
    [GetTopN(n)] returns without a panic the first [min n size] entries
    of the ordered slice, the entry of position [i] carrying the
    standard rank [i + 1]; for [n = 0] the result is empty. *)
Lemma GetTopN_prefix (lb : LeaderboardService) (n : Z) :
  wf lb → 0 ≤ n ≤ max_cap →
  ∃ res : list RankInfo,
    GetTopN lb n = Ret res ∧
    Z.of_nat (length res) = Z.min n (Z.of_nat (length (ranking lb))) ∧
    (n = 0 → res = []) ∧
    ∀ (i : nat) (ri : RankInfo), res !! i = Some ri →
      ∃ (l : loc) (e : PlayerEntry),
        ranking lb !! i = Some l ∧ heap lb !! l = Some e ∧
        ri = rankInfo e (Z.of_nat i + 1).
Proof.
  intros Hr [Hn Hcap]. unfold GetTopN. rewrite make_cap_Ret by done.
  unfold mbind, outcome_bind. rewrite GetTopN_loop_imap, Z.sub_0_r.
  eexists. split; [done|]. split; [|split].
  - rewrite length_imap, length_take. lia.
  - by intros ->.
  - intros i ri Hi. rewrite list_lookup_imap in Hi.
    destruct (take (Z.to_nat n) (ranking lb) !! i) as [l|] eqn:Hl; [|done].
    simpl in Hi. injection Hi as <-.
    apply lookup_take_Some in Hl as [Hl _].
    assert (l ∈ ranking lb) as Hin by (by eapply list_elem_of_lookup_2).
    apply (wf_lt lb l Hr), lookup_lt_is_Some_2 in Hin as [e He].
    exists l, e. split; [done|]. split; [done|].
    unfold deref. by rewrite He.
Qed.

(** ** [GetPlayerRankRange] *)

Lemma range_loop_window (h : list PlayerEntry) (r : list loc) (cnt : nat)
    (i : Z) :
  0 ≤ i → (Z.to_nat i + cnt ≤ length r)%nat →
  range_loop h r cnt i
  = Ret (imap (λ k l, rankInfo (deref h l) (i + Z.of_nat k + 1))
              (take cnt (drop (Z.to_nat i) r))).
Proof.
  revert i. induction cnt as [|cnt IH]; intros i Hi Hlen.
  - done.
  - cbn [range_loop]. destruct (Z.ltb_spec i 0) as [|_]; [lia|].
    destruct (lookup_lt_is_Some_2 r (Z.to_nat i) ltac:(lia)) as [e He].
    rewrite He, IH by lia. unfold mbind, outcome_bind.
    rewrite (drop_S r e (Z.to_nat i) He), firstn_cons, imap_cons.
    replace (Z.to_nat (i + 1)) with (S (Z.to_nat i)) by lia.
    f_equal. f_equal.
    + f_equal. lia.
    + apply imap_ext. intros k l _. simpl. f_equal. lia.
Qed.

Lemma wf_findRank (lb : LeaderboardService) (p : string) (l : loc) :
  wf lb → players lb !! p = Some l →
  ∃ pos : nat, findRank lb l = Z.of_nat pos ∧ ranking lb !! pos = Some l.
Proof.
  intros Hwf Hp. assert (l ∈ ranking lb) as Hin by (apply wf_elem; eauto).
  destruct (findRank_from_lookup 0 l (ranking lb) Hin) as (k & Hk & Hl).
  exists k. split; [|done]. unfold findRank. lia.
Qed.

(** On the range of [rng] where [rank + rng] cannot overflow, and
    where [make] accepts the size of the window, [GetPlayerRankRange]
    returns the clipped window. *)
Lemma GetPlayerRankRange_window (lb : LeaderboardService) (p : string)
    (l : loc) (rng : Z) :
  wf lb → players lb !! p = Some l →
  0 ≤ rng → Z.of_nat (length (ranking lb)) + rng ≤ max_int →
  Z.min (Z.of_nat (length (ranking lb))) (2 * rng + 1) ≤ max_cap →
  ∃ pos : nat,
    ranking lb !! pos = Some l ∧
    GetPlayerRankRange lb p rng = Ret (Slice (window lb pos rng)).
Proof.
  intros Hwf Hp Hrng Hmax Hcap.
  destruct (wf_findRank lb p l Hwf Hp) as (pos & Hrank & Hpos).
  exists pos. split; [done|].
  pose proof (lookup_lt_Some _ _ _ Hpos) as Hlt.
  unfold GetPlayerRankRange. rewrite Hp, Hrank.
  assert (min_int ≤ 0) as Hmin by done.
  rewrite (wrap_id (Z.of_nat pos - rng)) by (unfold min_int, max_int in *; lia).
  rewrite (wrap_id (Z.of_nat pos + rng)) by (unfold min_int, max_int in *; lia).
  set (len := Z.of_nat (length (ranking lb))) in *.
  set (start := if Z.of_nat pos - rng <? 0 then 0 else Z.of_nat pos - rng).
  set (end_ := if Z.of_nat pos + rng >=? len then len - 1
               else Z.of_nat pos + rng).
  assert (start = Z.max 0 (Z.of_nat pos - rng)) as Hstart
    by (unfold start; destruct (Z.ltb_spec (Z.of_nat pos - rng) 0); lia).
  assert (end_ = window_hi lb pos rng) as Hend.
  { unfold end_, window_hi. fold len.
    destruct (Z.geb_spec (Z.of_nat pos + rng) len); lia. }
  assert (0 ≤ start ≤ Z.of_nat pos) as Hs by lia.
  assert (Z.of_nat pos ≤ end_ < len) as He
    by (rewrite Hend; unfold window_hi; fold len; lia).
  rewrite (wrap_id (end_ - start)) by (unfold min_int, max_int in *; lia).
  rewrite (wrap_id (end_ - start + 1)) by (unfold min_int, max_int in *; lia).
  assert (end_ ≤ Z.of_nat pos + rng) as He'
    by (rewrite Hend; unfold window_hi; lia).
  rewrite make_cap_Ret by lia.
  unfold mbind at 1, outcome_bind at 1.
  rewrite range_loop_window by lia.
  unfold mbind, outcome_bind. f_equal. f_equal. unfold window, window_lo.
  rewrite <- Hend, <- Hstart.
  replace (Z.to_nat (end_ - start + 1))
    with (Z.to_nat (end_ + 1) - Z.to_nat start)%nat by lia.
  apply imap_ext. intros k x _. simpl. f_equal. lia.
Qed.

(** The window holds the entry of the player itself, once. *)
Lemma window_self (lb : LeaderboardService) (p : string) (l : loc)
    (pos : nat) (rng : Z) :
  wf lb → players lb !! p = Some l → ranking lb !! pos = Some l → 0 ≤ rng →
  ∃ (i : nat) (ri : RankInfo),
    window lb pos rng !! i = Some ri ∧ riPlayerID ri = p ∧
    riRank ri = Z.of_nat pos + 1 ∧
    ∀ (j : nat) (rj : RankInfo),
      window lb pos rng !! j = Some rj → riPlayerID rj = p → j = i.
Proof.
  intros Hwf Hp Hpos Hrng.
  pose proof (lookup_lt_Some _ _ _ Hpos) as Hlt.
  assert (window_lo pos rng ≤ pos)%nat as Hlo by (unfold window_lo; lia).
  assert (Z.of_nat pos ≤ window_hi lb pos rng) as Hhi
    by (unfold window_hi; lia).
  set (lo := window_lo pos rng) in *.
  assert (∀ j rj, window lb pos rng !! j = Some rj →
            ∃ x, ranking lb !! (lo + j)%nat = Some x ∧
                 rj = rankInfo (deref (heap lb) x) (Z.of_nat (lo + j) + 1))
    as Hlook.
  { intros j rj Hj. unfold window in Hj. fold lo in Hj.
    rewrite list_lookup_imap in Hj.
    destruct (take _ _ !! j) as [x|] eqn:Hx; [|done].
    simpl in Hj. injection Hj as <-.
    apply lookup_take_Some in Hx as [Hx _]. rewrite lookup_drop in Hx. eauto. }
  exists (pos - lo)%nat, (rankInfo (deref (heap lb) l) (Z.of_nat pos + 1)).
  split; [|split; [|split]].
  - unfold window. fold lo. rewrite list_lookup_imap, lookup_take_lt by lia.
    rewrite lookup_drop.
    replace (lo + (pos - lo))%nat with pos by lia. by rewrite Hpos.
  - simpl. by apply wf_deref.
  - done.
  - intros j rj Hj Hid. destruct (Hlook j rj Hj) as (x & Hx & ->).
    simpl in Hid.
    assert (rankingIDs lb !! (lo + j)%nat = Some p) as H1.
    { unfold rankingIDs. by rewrite list_lookup_fmap, Hx, <- Hid. }
    assert (rankingIDs lb !! pos = Some p) as H2.
    { unfold rankingIDs. rewrite list_lookup_fmap, Hpos. simpl.
      f_equal. by apply wf_deref. }
    pose proof (NoDup_lookup_eq _ _ _ _ (wf_NoDup_ids lb Hwf) H1 H2). lia.
Qed.

(** ** [GetPlayerDenseRankRange] *)

Lemma denseRanks_eq_ref (lb : LeaderboardService) :
  wf lb → denseRanks lb = denseRanks_ref lb.
Proof.
  intros Hwf. apply list_eq. intros i. unfold denseRanks_ref.
  rewrite list_lookup_imap. unfold scores at 2, scoresOf.
  rewrite list_lookup_fmap.
  destruct (ranking lb !! i) as [l|] eqn:Hl; simpl.
  - by apply denseRanks_spec.
  - apply lookup_ge_None. apply lookup_ge_None in Hl.
    unfold denseRanks. by rewrite denseRanks_loop_length.
Qed.

Lemma band_loop_filter (h : list PlayerEntry) (lo hi : Z) (r : list loc)
    (dr : list Z) :
  band_loop h lo hi r dr
  = (λ lr, rankInfo (deref h lr.1) lr.2) <$>
      filter (λ lr : loc * Z, lo ≤ lr.2 ≤ hi) (zip r dr).
Proof.
  revert dr. induction r as [|e r IH]; intros [|d dr]; try done.
  cbn [band_loop]. rewrite IH. cbn [zip zip_with]. rewrite filter_cons. simpl.
  destruct (Z.geb_spec d lo), (Z.leb_spec d hi); simpl;
    [rewrite decide_True by lia|rewrite decide_False by lia..]; done.
Qed.

Lemma playerDenseRank_lookup (l : loc) (r : list loc) (dr : list Z)
    (pos : nat) (d : Z) :
  NoDup r → r !! pos = Some l → dr !! pos = Some d →
  playerDenseRank l r dr = d.
Proof.
  intros Hnd. revert dr pos.
  induction Hnd as [|e r Hnot Hnd IH]; intros [|d' dr] pos Hl Hd; try done.
  cbn [playerDenseRank]. destruct pos as [|pos]; simpl in Hl, Hd.
  - injection Hl as ->. injection Hd as ->. by rewrite decide_True.
  - rewrite decide_False; [by apply (IH dr pos)|].
    intros ->. apply Hnot. by eapply list_elem_of_lookup_2.
Qed.

Lemma distinct_le_length (ss : list Z) : distinct ss ≤ Z.of_nat (length ss).
Proof.
  unfold distinct. apply inj_le. induction ss as [|s ss IH]; [done|].
  cbn [list_to_set foldr length].
  rewrite (size_union_alt (C:=gset Z)), size_singleton.
  pose proof (subseteq_size (C:=gset Z) (list_to_set ss ∖ {[s]})
                (list_to_set ss) ltac:(set_solver)). lia.
Qed.

Lemma dense_rank_ref_bounds (ss : list Z) (i : nat) (s : Z) :
  ss !! i = Some s → 1 ≤ dense_rank_ref ss i s ≤ Z.of_nat i + 1.
Proof.
  intros Hi. unfold dense_rank_ref. rewrite (take_S_r ss i s Hi), filter_app.
  rewrite (filter_cons _ s), decide_False by lia. simpl. rewrite app_nil_r.
  pose proof (distinct_le_length (filter (λ x, s < x) (take i ss))) as H1.
  pose proof (length_filter (λ x, s < x) (take i ss)) as H2.
  pose proof (length_take_le ss i
                ltac:(apply Nat.lt_le_incl; by eapply lookup_lt_Some)) as H3.
  unfold distinct in *. lia.
Qed.

(** On the range of [rng] where [make] accepts the capacity [2*rng+1]
    and [playerDenseRank + rng] does not overflow,
    [GetPlayerDenseRankRange] returns the band around the reference
    dense rank of the player. *)
Lemma GetPlayerDenseRankRange_band (lb : LeaderboardService) (p : string)
    (l : loc) (rng : Z) :
  wf lb → players lb !! p = Some l →
  0 ≤ rng → 2 * rng + 1 ≤ max_cap →
  Z.of_nat (length (ranking lb)) + rng ≤ max_int →
  ∃ (pos : nat) (e : PlayerEntry),
    ranking lb !! pos = Some l ∧ heap lb !! l = Some e ∧
    GetPlayerDenseRankRange lb p rng
    = Ret (Slice (dense_band lb (dense_rank_ref (scores lb) pos (Score e))
                             rng)).
Proof.
  intros Hwf Hp Hrng Hcap Hmax. pose proof max_cap_val as Hmc.
  destruct (wf_findRank lb p l Hwf Hp) as (pos & _ & Hpos).
  destruct (wf_alloc lb Hwf p l Hp) as (e & He & _).
  exists pos, e. split; [done|]. split; [done|].
  pose proof (lookup_lt_Some _ _ _ Hpos) as Hlt.
  assert (deref (heap lb) l = e) as Hd by (unfold deref; by rewrite He).
  set (d := dense_rank_ref (scores lb) pos (Score e)).
  assert (1 ≤ d ≤ Z.of_nat pos + 1) as Hdb.
  { apply dense_rank_ref_bounds. unfold scores, scoresOf.
    by rewrite list_lookup_fmap, Hpos, <- Hd. }
  unfold GetPlayerDenseRankRange. rewrite Hp.
  rewrite (playerDenseRank_lookup l (ranking lb) (denseRanks lb) pos d);
    [|by apply wf_NoDup|done|by rewrite (denseRanks_spec lb pos l), Hd].
  rewrite (wrap_id (2 * rng)) by (unfold min_int, max_int in *; lia).
  rewrite (wrap_id (2 * rng + 1)) by (unfold min_int, max_int in *; lia).
  rewrite (wrap_id (d - rng)) by (unfold min_int, max_int in *; lia).
  rewrite (wrap_id (d + rng)) by (unfold min_int, max_int in *; lia).
  rewrite make_cap_Ret by lia.
  unfold mbind, outcome_bind.
  by rewrite band_loop_filter, denseRanks_eq_ref.
Qed.

(** The band holds the entry of the player itself, with its dense
    rank. *)
Lemma dense_band_self (lb : LeaderboardService) (p : string) (l : loc)
    (pos : nat) (e : PlayerEntry) (rng : Z) :
  wf lb → players lb !! p = Some l → ranking lb !! pos = Some l →
  heap lb !! l = Some e → 0 ≤ rng →
  let d := dense_rank_ref (scores lb) pos (Score e) in
  ∃ ri : RankInfo,
    ri ∈ dense_band lb d rng ∧ riPlayerID ri = p ∧ riRank ri = d.
Proof.
  intros Hwf Hp Hpos He Hrng d.
  assert (deref (heap lb) l = e) as Hd by (unfold deref; by rewrite He).
  exists (rankInfo e d). split; [|split]; [| |done].
  - unfold dense_band. apply list_elem_of_fmap. exists (l, d).
    simpl. rewrite Hd. split; [done|]. apply list_elem_of_filter.
    split; [simpl; lia|]. apply list_elem_of_lookup. exists pos.
    apply lookup_zip_with_Some. exists l, d. split; [done|]. split; [done|].
    by rewrite <- denseRanks_eq_ref, (denseRanks_spec lb pos l), Hd.
  - simpl. rewrite <- Hd. by apply wf_deref.
Qed.

(** * The queries on integers they do not guard *)

(** A negative [rng] makes the capacity of the result negative in both
    range queries, for every known player. *)
Lemma GetPlayerRankRange_negative (lb : LeaderboardService) (p : string)
    (l : loc) (rng : Z) :
  wf lb → players lb !! p = Some l →
  - 2 ^ 62 ≤ rng < 0 → Z.of_nat (length (ranking lb)) - rng ≤ max_int →
  GetPlayerRankRange lb p rng = Panic.
Proof.
  intros Hwf Hp Hrng Hmax.
  destruct (wf_findRank lb p l Hwf Hp) as (pos & Hrank & Hpos).
  pose proof (lookup_lt_Some _ _ _ Hpos) as Hlt.
  unfold GetPlayerRankRange. rewrite Hp, Hrank.
  rewrite (wrap_id (Z.of_nat pos - rng)) by (unfold min_int, max_int in *; lia).
  rewrite (wrap_id (Z.of_nat pos + rng)) by (unfold min_int, max_int in *; lia).
  destruct (Z.ltb_spec (Z.of_nat pos - rng) 0) as [|_]; [lia|].
  destruct (Z.geb_spec (Z.of_nat pos + rng) (Z.of_nat (length (ranking lb))))
    as [|_]; [lia|].
  rewrite (wrap_id (Z.of_nat pos + rng - (Z.of_nat pos - rng)))
    by (unfold min_int, max_int in *; lia).
  rewrite wrap_id by (unfold min_int, max_int in *; lia).
  by rewrite make_cap_Panic by (left; lia).
Qed.

Lemma GetPlayerDenseRankRange_negative (lb : LeaderboardService) (p : string)
    (l : loc) (rng : Z) :
  players lb !! p = Some l → - 2 ^ 62 ≤ rng < 0 →
  GetPlayerDenseRankRange lb p rng = Panic.
Proof.
  intros Hp Hrng. unfold GetPlayerDenseRankRange. rewrite Hp.
  rewrite (wrap_id (2 * rng)) by (unfold min_int, max_int; lia).
  rewrite (wrap_id (2 * rng + 1)) by (unfold min_int, max_int; lia).
  by rewrite make_cap_Panic by (left; lia).
Qed.

(** C4. [GetTopN] is to return for every integer [n], with an empty
    result for [n <= 0].  At [n = -1] the call panics instead: the
    capacity [n] given to [make] is negative. *)
Theorem GetTopN_negative_panics :
  GetTopN two_players (-1) = Panic.
Proof. reflexivity. Qed.

(** C5. [GetPlayerRankRange] is to clip its window silently for every
    integer [rng].  For the known player "B" the call panics at
    [rng = -1], where the capacity [end - start + 1] is [-1], and at the
    largest [int], where [rank + rng] wraps to a negative [end] before
    the clipping is tried. *)
Theorem GetPlayerRankRange_panics :
  GetPlayerRankRange two_players "B" (-1) = Panic ∧
  GetPlayerRankRange two_players "B" max_int = Panic.
Proof. split; reflexivity. Qed.

(** C6. [GetPlayerDenseRankRange] is to return the band of dense ranks
    [d - rng] to [d + rng] for every [rng].  For the known player "B"
    the call panics at [rng = -1], where the band is empty and the
    capacity [2*rng+1] is [-1], and at [rng = 2^62], where [2*rng+1]
    wraps to a negative capacity. *)
Theorem GetPlayerDenseRankRange_panics :
  GetPlayerDenseRankRange two_players "B" (-1) = Panic ∧
  GetPlayerDenseRankRange two_players "B" (2 ^ 62) = Panic.
Proof. split; reflexivity. Qed.

(** C10. Both range queries are to hold the entry of the player itself
    for every [rng >= 0].  At the largest [int] both calls for the
    known player "B" panic and return no entry at all. *)
Theorem self_inclusion_panics :
  0 ≤ max_int ∧
  GetPlayerRankRange two_players "B" max_int = Panic ∧
  GetPlayerDenseRankRange two_players "B" max_int = Panic.
Proof. repeat split; try reflexivity. done. Qed.

(** * Further properties of the index *)

(** ** Standard ranks *)

Lemma wf_ranking_entry (lb : LeaderboardService) (i : nat) (l : loc) :
  wf lb → ranking lb !! i = Some l →
  ∃ e : PlayerEntry,
    heap lb !! l = Some e ∧ players lb !! PlayerID e = Some l.
Proof.
  intros Hwf Hi.
  assert (l ∈ ranking lb) as Hin by (by eapply list_elem_of_lookup_2).
  apply (wf_elem lb l Hwf) in Hin as (p & Hp).
  destruct (wf_alloc lb Hwf p l Hp) as (e & He & <-). eauto.
Qed.

Lemma wf_findRank_pos (lb : LeaderboardService) (pos : nat) (l : loc) :
  wf lb → ranking lb !! pos = Some l → findRank lb l = Z.of_nat pos.
Proof.
  intros Hwf Hpos.
  assert (l ∈ ranking lb) as Hin by (by eapply list_elem_of_lookup_2).
  destruct (findRank_from_lookup 0 l (ranking lb) Hin) as (k & Hk & Hl).
  unfold findRank. rewrite Hk.
  rewrite (NoDup_lookup_eq _ _ _ _ (wf_NoDup lb Hwf) Hl Hpos). lia.
Qed.

(** X1. For a known player [GetPlayerRank] never falls back on the
    [-1] of [findRank]: it returns the current entry of the player with
    the rank [pos + 1] of the place [pos] that holds the entry, a rank
    between [1] and the population size. *)
Theorem GetPlayerRank_known (lb : LeaderboardService) (p : string) (l : loc) :
  reachable lb → players lb !! p = Some l →
  ∃ (pos : nat) (e : PlayerEntry),
    ranking lb !! pos = Some l ∧ heap lb !! l = Some e ∧ PlayerID e = p ∧
    GetPlayerRank lb p = Some (rankInfo e (Z.of_nat pos + 1)) ∧
    1 ≤ Z.of_nat pos + 1 ≤ Z.of_nat (length (ranking lb)).
Proof.
  intros Hr Hp. apply reachable_wf in Hr.
  destruct (wf_findRank lb p l Hr Hp) as (pos & Hrank & Hpos).
  destruct (wf_alloc lb Hr p l Hp) as (e & He & Hid).
  exists pos, e. repeat split; try done.
  - unfold GetPlayerRank. rewrite Hp, Hrank. unfold deref. by rewrite He.
  - lia.
  - apply lookup_lt_Some in Hpos. lia.
Qed.

Lemma GetPlayerRank_known_witness :
  ∃ (pos : nat) (e : PlayerEntry),
    ranking three_players !! pos = Some 2%nat ∧
    heap three_players !! 2%nat = Some e ∧ PlayerID e = "C" ∧
    GetPlayerRank three_players "C" = Some (rankInfo e (Z.of_nat pos + 1)) ∧
    1 ≤ Z.of_nat pos + 1 ≤ Z.of_nat (length (ranking three_players)).
Proof.
  apply (GetPlayerRank_known three_players "C" 2%nat).
  - exists [("A", 100, 1); ("B", 100, 2); ("C", 90, 3)]. reflexivity.
  - reflexivity.
Defined.

Lemma GetPlayerRank_Some (lb : LeaderboardService) (p : string)
    (ri : RankInfo) :
  wf lb → GetPlayerRank lb p = Some ri →
  ∃ (l : loc) (pos : nat) (e : PlayerEntry),
    players lb !! p = Some l ∧ ranking lb !! pos = Some l ∧
    heap lb !! l = Some e ∧ ri = rankInfo e (Z.of_nat pos + 1).
Proof.
  intros Hwf Hri. unfold GetPlayerRank in Hri.
  destruct (players lb !! p) as [l|] eqn:Hp; [|done].
  destruct (wf_findRank lb p l Hwf Hp) as (pos & Hrank & Hpos).
  destruct (wf_alloc lb Hwf p l Hp) as (e & He & Hid).
  exists l, pos, e. repeat split; try done.
  injection Hri as <-. rewrite Hrank. unfold deref. by rewrite He.
Qed.

(** X2. The standard rank follows the comparator: of two players of a
    reachable index, the one with the higher score, or with the same
    score and the earlier timestamp, has the strictly smaller rank. *)
Theorem rank_follows_comparator (lb : LeaderboardService) (p q : string)
    (rp rq : RankInfo) :
  reachable lb →
  GetPlayerRank lb p = Some rp → GetPlayerRank lb q = Some rq →
  riScore rq < riScore rp ∨
    (riScore rp = riScore rq ∧ riTimestamp rp < riTimestamp rq) →
  riRank rp < riRank rq.
Proof.
  intros Hr Hp Hq Hlt. apply reachable_wf in Hr.
  destruct (GetPlayerRank_Some lb p rp Hr Hp)
    as (lp & i & ep & _ & Hi & Hep & ->).
  destruct (GetPlayerRank_Some lb q rq Hr Hq)
    as (lq & j & eq & _ & Hj & Heq & ->).
  simpl in *. destruct (decide (i < j)%nat) as [|Hge]; [lia|]. exfalso.
  destruct (decide (i = j)) as [->|Hne].
  - assert (ep = eq) as -> by congruence. lia.
  - pose proof (StronglySorted_lookup (ordl (heap lb)) (ranking lb) j i lq lp
                  (wf_sorted lb Hr) ltac:(lia) Hj Hi) as Hord.
    unfold ordl, ord, deref in Hord. rewrite Hep, Heq in Hord.
    simpl in Hord. lia.
Qed.

Lemma rank_follows_comparator_witness :
  riRank (rankInfo (mkPlayerEntry "B" 100 2) 2)
  < riRank (rankInfo (mkPlayerEntry "C" 90 3) 3).
Proof.
  apply (rank_follows_comparator three_players "B" "C").
  - exists [("A", 100, 1); ("B", 100, 2); ("C", 90, 3)]. reflexivity.
  - reflexivity.
  - reflexivity.
  - left. reflexivity.
Defined.

(** ** One update, seen through the queries *)

Lemma filter_all {A} (P : A → Prop) `{∀ x, Decision (P x)} (l : list A) :
  Forall P l → filter P l = l.
Proof.
  induction 1 as [|x l Hx Hl IH]; [done|].
  by rewrite filter_cons_True, IH.
Qed.

Lemma filter_none {A} (P : A → Prop) `{∀ x, Decision (P x)} (l : list A) :
  Forall (λ x, ¬ P x) l → filter P l = [].
Proof.
  induction 1 as [|x l Hx Hl IH]; [done|].
  by rewrite filter_cons_False, IH.
Qed.

(** X3. After [UpdateScore(p, s, t)] on a reachable index,
    [GetPlayerRank(p)] returns the name [p], the score [s] and the
    timestamp [t], and a rank that is one more than the number of other
    entries that stand ahead of [(s, t)]: those with a higher score, or
    with the score [s] and a timestamp not later than [t]. *)
Theorem UpdateScore_rank (lb : LeaderboardService) (p : string) (s t : Z) :
  reachable lb →
  let lb' := UpdateScore lb p s t in
  ∃ l : loc,
    players lb' !! p = Some l ∧
    GetPlayerRank lb' p
    = Some (mkRankInfo p s
              (1 + Z.of_nat (length (filter
                 (λ x, x ≠ l ∧ ahead s t (deref (heap lb') x))
                 (ranking lb'))))
              t).
Proof.
  intros Hr lb'. apply reachable_wf in Hr.
  pose proof (UpdateScore_wf lb p s t Hr) as Hwf'. fold lb' in Hwf'.
  destruct (UpdateScore_shape lb p s t Hr)
    as (l & r & idx & Hp & Hl & Hnot & Hle & _ & Hrk & Hlo & Hhi).
  fold lb' in Hp, Hl, Hrk, Hlo, Hhi.
  exists l. split; [done|].
  assert (length (take idx r) = idx) as Hlen by (rewrite length_take; lia).
  assert (ranking lb' !! idx = Some l) as Hidx.
  { rewrite Hrk. by apply list_lookup_middle. }
  unfold GetPlayerRank. rewrite Hp, (wf_findRank_pos lb' idx l Hwf' Hidx).
  unfold deref at 1. rewrite Hl. unfold rankInfo. simpl. f_equal. f_equal.
  rewrite Hrk, filter_app, filter_cons_False by (by intros [? _]).
  rewrite filter_all, filter_none, app_nil_r; [lia| |].
  - eapply Forall_impl; [exact Hhi|]. intros x Hx [_ Ha].
    apply after_true in Hx. unfold ahead in Ha. simpl in Hx. lia.
  - rewrite Forall_forall in Hlo. apply Forall_forall. intros x Hx. split.
    + intros ->. apply Hnot. by eapply subseteq_take.
    + apply Hlo, after_false in Hx. unfold ord in Hx. unfold ahead.
      simpl in Hx. lia.
Qed.

Lemma UpdateScore_rank_witness :
  let lb' := UpdateScore three_players "C" 100 2 in
  ∃ l : loc,
    players lb' !! "C" = Some l ∧
    GetPlayerRank lb' "C"
    = Some (mkRankInfo "C" 100
              (1 + Z.of_nat (length (filter
                 (λ x, x ≠ l ∧ ahead 100 2 (deref (heap lb') x))
                 (ranking lb'))))
              2).
Proof.
  apply (UpdateScore_rank three_players "C" 100 2).
  exists [("A", 100, 1); ("B", 100, 2); ("C", 90, 3)]. reflexivity.
Defined.

(** What [UpdateScore(p, s, t)] leaves alone: the pointers of the other
    names, the entries behind every other pointer, and the slice once
    the entry of [p] is taken out. *)
Lemma UpdateScore_rest (lb : LeaderboardService) (p : string) (s t : Z) :
  wf lb →
  let lb' := UpdateScore lb p s t in
  ∃ l : loc,
    players lb' !! p = Some l ∧
    (∀ q, q ≠ p → players lb' !! q = players lb !! q) ∧
    (∀ q, players lb !! q = Some l → q = p) ∧
    (∀ x, players lb !! p = Some x → x = l) ∧
    (∀ x, x ≠ l → (x < length (heap lb))%nat →
       deref (heap lb') x = deref (heap lb) x) ∧
    removeFromRanking l (ranking lb') = removeFromRanking l (ranking lb).
Proof.
  intros Hwf lb'. subst lb'. unfold UpdateScore.
  destruct (players lb !! p) as [l|] eqn:Hp; unfold insertToRanking; simpl.
  - exists l. split; [done|]. split; [done|]. split; [|split; [|split]].
    + intros q Hq. by eapply wf_inj.
    + intros x Hx. congruence.
    + intros x Hx _. by apply deref_alter_ne.
    + apply remove_insertAt, remove_NoDup_notin. by apply wf_NoDup.
  - exists (length (heap lb)). split; [by rewrite lookup_insert_eq|].
    split; [|split; [|split; [|split]]].
    + intros q Hq. by rewrite lookup_insert_ne.
    + intros q Hq. destruct (wf_alloc lb Hwf q _ Hq) as (e & He & _).
      apply lookup_lt_Some in He. lia.
    + done.
    + intros x _ Hx. by apply deref_app_lt.
    + assert (length (heap lb) ∉ ranking lb) as Hnot.
      { intros Hin. apply (wf_lt lb _ Hwf) in Hin. lia. }
      by rewrite remove_insertAt, remove_notin.
Qed.

(** The names of the slice without the entry of one player. *)
Lemma rankingIDs_without (lb : LeaderboardService) (p : string) (l : loc) :
  wf lb → (∀ q, players lb !! q = Some l → q = p) →
  (∀ x, players lb !! p = Some x → x = l) →
  filter (λ n, n ≠ p) (rankingIDs lb)
  = (λ x, PlayerID (deref (heap lb) x)) <$> removeFromRanking l (ranking lb).
Proof.
  intros Hwf Hl Hp.
  assert (∀ x, x ∈ ranking lb → x ≠ l → PlayerID (deref (heap lb) x) ≠ p)
    as Hne.
  { intros x (q & Hq)%wf_elem Hx; [|done].
    rewrite (wf_deref lb q x Hwf Hq). intros ->. by apply Hx, Hp. }
  assert (∀ x, x ∈ ranking lb → x = l → PlayerID (deref (heap lb) x) = p)
    as Heq.
  { intros x (q & Hq)%wf_elem ->; [|done].
    rewrite (wf_deref lb q l Hwf Hq). by apply Hl. }
  unfold rankingIDs. pose proof (wf_NoDup lb Hwf) as Hnd.
  induction (ranking lb) as [|e r IH]; [done|].
  apply NoDup_cons in Hnd as [Hnot Hnd]. cbn [fmap list_fmap removeFromRanking].
  destruct (decide (e = l)) as [->|Hel].
  - rewrite filter_cons_False by (intros Hn; apply Hn, Heq; [by left|done]).
    rewrite <- (remove_notin l r Hnot) at 2.
    apply IH; [| |done]; intros x Hx; [apply Hne|apply Heq]; by right.
  - rewrite filter_cons_True by (apply Hne; [by left|done]).
    cbn [fmap list_fmap]. f_equal.
    apply IH; [| |done]; intros x Hx; [apply Hne|apply Heq]; by right.
Qed.

(** X4. [UpdateScore(p, s, t)] on a reachable index moves only the entry
    of [p]: every other player keeps score and timestamp, and the names
    of the other players follow one another in the ordered slice as
    they did before. *)
Theorem UpdateScore_frame (lb : LeaderboardService) (p : string) (s t : Z) :
  reachable lb →
  let lb' := UpdateScore lb p s t in
  (∀ q, q ≠ p →
     (λ ri, (riScore ri, riTimestamp ri)) <$> GetPlayerRank lb' q
     = (λ ri, (riScore ri, riTimestamp ri)) <$> GetPlayerRank lb q) ∧
  filter (λ n, n ≠ p) (rankingIDs lb') = filter (λ n, n ≠ p) (rankingIDs lb).
Proof.
  intros Hr lb'. apply reachable_wf in Hr.
  pose proof (UpdateScore_wf lb p s t Hr) as Hwf'. fold lb' in Hwf'.
  destruct (UpdateScore_rest lb p s t Hr)
    as (l & Hp & Hq & Hl & Hpl & Hd & Hrm).
  fold lb' in Hp, Hq, Hd, Hrm. split.
  - intros q Hne. unfold GetPlayerRank. rewrite (Hq q Hne).
    destruct (players lb !! q) as [x|] eqn:Hx; [|done]. simpl.
    rewrite Hd; [done| |].
    + intros ->. by apply Hne, Hl.
    + destruct (wf_alloc lb Hr q x Hx) as (e & He & _).
      by eapply lookup_lt_Some.
  - assert (filter (λ n, n ≠ p) (rankingIDs lb')
            = (λ x, PlayerID (deref (heap lb') x))
                <$> removeFromRanking l (ranking lb')) as ->.
    { apply rankingIDs_without; [done| |].
      - intros q Hq'. by eapply wf_inj.
      - intros x Hx. congruence. }
    rewrite (rankingIDs_without lb p l Hr Hl Hpl), Hrm.
    apply list_fmap_ext. intros i x Hx. f_equal.
    apply list_elem_of_lookup_2 in Hx.
    assert (x ≠ l) as Hxl.
    { intros ->. revert Hx. by apply remove_NoDup_notin, wf_NoDup. }
    apply Hd; [done|]. apply (wf_lt lb x Hr). by eapply remove_subseteq.
Qed.

Lemma UpdateScore_frame_witness :
  let lb' := UpdateScore three_players "C" 100 2 in
  (∀ q, q ≠ "C" →
     (λ ri, (riScore ri, riTimestamp ri)) <$> GetPlayerRank lb' q
     = (λ ri, (riScore ri, riTimestamp ri)) <$> GetPlayerRank three_players q) ∧
  filter (λ n, n ≠ "C") (rankingIDs lb')
  = filter (λ n, n ≠ "C") (rankingIDs three_players).
Proof.
  apply (UpdateScore_frame three_players "C" 100 2).
  exists [("A", 100, 1); ("B", 100, 2); ("C", 90, 3)]. reflexivity.
Defined.

(** ** The queries agree with one another *)

(** The answer of [GetPlayerRank] for the player whose entry stands at
    place [i]. *)
Lemma GetPlayerRank_at (lb : LeaderboardService) (i : nat) (l : loc) :
  wf lb → ranking lb !! i = Some l →
  GetPlayerRank lb (PlayerID (deref (heap lb) l))
  = Some (rankInfo (deref (heap lb) l) (Z.of_nat i + 1)).
Proof.
  intros Hwf Hi. destruct (wf_ranking_entry lb i l Hwf Hi) as (e & He & Hp).
  unfold GetPlayerRank. unfold deref at 1. rewrite He. simpl. rewrite Hp.
  by rewrite (wf_findRank_pos lb i l Hwf Hi).
Qed.

(** X5. Every entry of a result of [GetTopN] is the answer of
    [GetPlayerRank] for the player it names: same score, same
    timestamp, same rank. *)
Theorem GetTopN_agrees_GetPlayerRank (lb : LeaderboardService) (n : Z)
    (res : list RankInfo) (i : nat) (ri : RankInfo) :
  reachable lb → GetTopN lb n = Ret res → res !! i = Some ri →
  GetPlayerRank lb (riPlayerID ri) = Some ri.
Proof.
  intros Hr Hres Hi. apply reachable_wf in Hr.
  unfold GetTopN in Hres. destruct (make_cap n) as [[]|]; [|done].
  unfold mbind, outcome_bind in Hres. injection Hres as <-.
  rewrite GetTopN_loop_imap, Z.sub_0_r, list_lookup_imap in Hi.
  destruct (take (Z.to_nat n) (ranking lb) !! i) as [l|] eqn:Hl; [|done].
  simpl in Hi. injection Hi as <-. apply lookup_take_Some in Hl as [Hl _].
  simpl. rewrite (GetPlayerRank_at lb i l Hr Hl). do 2 f_equal; lia.
Qed.

Lemma GetTopN_agrees_GetPlayerRank_witness :
  GetPlayerRank three_players (riPlayerID (mkRankInfo "B" 100 2 2))
  = Some (mkRankInfo "B" 100 2 2).
Proof.
  apply (GetTopN_agrees_GetPlayerRank three_players 2
           [mkRankInfo "A" 100 1 1; mkRankInfo "B" 100 2 2] 1%nat).
  - exists [("A", 100, 1); ("B", 100, 2); ("C", 90, 3)]. reflexivity.
  - reflexivity.
  - reflexivity.
Defined.

(** The loop of [GetPlayerRankRange], whenever it ends without a
    panic: turn [k] read place [i + k] and gave it rank [i + k + 1]. *)
Lemma range_loop_Ret (h : list PlayerEntry) (r : list loc) (cnt : nat)
    (i : Z) (res : list RankInfo) :
  range_loop h r cnt i = Ret res →
  length res = cnt ∧
  ∀ (k : nat) (ri : RankInfo), res !! k = Some ri →
    ∃ (j : nat) (l : loc),
      Z.of_nat j = i + Z.of_nat k ∧ r !! j = Some l ∧
      ri = rankInfo (deref h l) (Z.of_nat j + 1).
Proof.
  revert i res. induction cnt as [|cnt IH]; intros i res Hres.
  - injection Hres as <-. split; [done|]. by intros k ri Hk.
  - cbn [range_loop] in Hres.
    destruct (Z.ltb_spec i 0) as [|Hi]; [done|].
    destruct (r !! Z.to_nat i) as [e|] eqn:He; [|done].
    destruct (range_loop h r cnt (i + 1)) as [rest|] eqn:Hrest; [|done].
    unfold mbind, outcome_bind in Hres. injection Hres as <-.
    destruct (IH (i + 1) rest Hrest) as [Hlen Hk]. split; [simpl; lia|].
    intros [|k] ri Hri; simpl in Hri.
    + injection Hri as <-. exists (Z.to_nat i), e.
      split; [lia|]. split; [done|]. f_equal. lia.
    + destruct (Hk k ri Hri) as (j & l & Hj & Hl & ->).
      exists j, l. split; [lia|done].
Qed.

(** X6. Every entry of a result of [GetPlayerRankRange], for whatever
    [rng] the call returns, is the answer of [GetPlayerRank] for the
    player it names: the window carries true standard ranks. *)
Theorem GetPlayerRankRange_agrees_GetPlayerRank (lb : LeaderboardService)
    (p : string) (rng : Z) (res : list RankInfo) (i : nat) (ri : RankInfo) :
  reachable lb → GetPlayerRankRange lb p rng = Ret (Slice res) →
  res !! i = Some ri →
  GetPlayerRank lb (riPlayerID ri) = Some ri.
Proof.
  intros Hr Hres Hi. apply reachable_wf in Hr.
  unfold GetPlayerRankRange in Hres.
  destruct (players lb !! p) as [l|]; [|done].
  unfold mbind, outcome_bind in Hres.
  destruct (make_cap _) as [[]|]; [|done].
  destruct (range_loop _ _ _ _) as [res'|] eqn:Hloop; [|done].
  injection Hres as <-.
  destruct (range_loop_Ret _ _ _ _ _ Hloop) as [_ Hk].
  destruct (Hk i ri Hi) as (j & x & _ & Hx & ->). simpl.
  by rewrite (GetPlayerRank_at lb j x Hr Hx).
Qed.

Lemma GetPlayerRankRange_agrees_GetPlayerRank_witness :
  GetPlayerRank three_players (riPlayerID (mkRankInfo "C" 90 3 3))
  = Some (mkRankInfo "C" 90 3 3).
Proof.
  apply (GetPlayerRankRange_agrees_GetPlayerRank three_players "B" 1
           [mkRankInfo "A" 100 1 1; mkRankInfo "B" 100 2 2;
            mkRankInfo "C" 90 3 3] 2%nat).
  - exists [("A", 100, 1); ("B", 100, 2); ("C", 90, 3)]. reflexivity.
  - reflexivity.
  - reflexivity.
Defined.

(** X7. Rank bijection: with [n] at least the population size and at
    most the largest capacity [make] accepts, [GetTopN(n)] on a
    reachable index returns the whole population: the names are those
    of the ordered slice, each known player and no other name occurs,
    none twice, and the ranks are [1, 2, .., size]. *)
Theorem GetTopN_all (lb : LeaderboardService) (n : Z) :
  reachable lb → Z.of_nat (length (ranking lb)) ≤ n → n ≤ max_cap →
  ∃ res : list RankInfo,
    GetTopN lb n = Ret res ∧
    riPlayerID <$> res = rankingIDs lb ∧
    NoDup (riPlayerID <$> res) ∧
    (∀ p, p ∈ riPlayerID <$> res ↔ is_Some (players lb !! p)) ∧
    riRank <$> res = seqZ 1 (Z.of_nat (length (ranking lb))).
Proof.
  intros Hr Hn Hcap. apply reachable_wf in Hr. unfold GetTopN.
  rewrite make_cap_Ret by lia.
  unfold mbind, outcome_bind. rewrite GetTopN_loop_imap, Z.sub_0_r.
  rewrite take_ge by lia. eexists. split; [done|].
  assert (riPlayerID <$> imap (λ k l, rankInfo (deref (heap lb) l)
                                        (0 + Z.of_nat k + 1)) (ranking lb)
          = rankingIDs lb) as Hids.
  { rewrite fmap_imap. unfold rankingIDs. rewrite <- imap_const.
    by apply imap_ext. }
  rewrite Hids. split; [done|]. split; [by apply wf_NoDup_ids|]. split.
  - intros p. unfold rankingIDs. rewrite list_elem_of_fmap. split.
    + intros (l & -> & (q & Hq)%wf_elem); [|done].
      by rewrite (wf_deref lb q l Hr Hq), Hq.
    + intros [l Hl]. exists l. split; [by rewrite (wf_deref lb p l Hr Hl)|].
      apply wf_elem; eauto.
  - apply list_eq. intros i. rewrite list_lookup_fmap, list_lookup_imap.
    destruct (ranking lb !! i) as [l|] eqn:Hl; simpl.
    + apply lookup_lt_Some in Hl. rewrite lookup_seqZ_lt by lia.
      f_equal. lia.
    + apply lookup_ge_None in Hl. by rewrite lookup_seqZ_ge by lia.
Qed.

Lemma GetTopN_all_witness :
  ∃ res : list RankInfo,
    GetTopN three_players 5 = Ret res ∧
    riPlayerID <$> res = rankingIDs three_players ∧
    NoDup (riPlayerID <$> res) ∧
    (∀ p, p ∈ riPlayerID <$> res ↔ is_Some (players three_players !! p)) ∧
    riRank <$> res = seqZ 1 (Z.of_nat (length (ranking three_players))).
Proof.
  apply (GetTopN_all three_players 5).
  - exists [("A", 100, 1); ("B", 100, 2); ("C", 90, 3)]. reflexivity.
  - vm_compute. discriminate.
  - vm_compute. discriminate.
Defined.

(** ** Dense ranks over the whole population *)

Lemma sorted_scores_le (h : list PlayerEntry) (r : list loc) (i j : nat)
    (a b : loc) :
  sorted h r → (i < j)%nat → r !! i = Some a → r !! j = Some b →
  Score (deref h b) ≤ Score (deref h a).
Proof.
  intros Hs Hij Ha Hb.
  pose proof (StronglySorted_lookup (ordl h) r i j a b Hs Hij Ha Hb) as Hord.
  unfold ordl, ord in Hord. lia.
Qed.

(** On a sorted slice the scores above [s] all stand before the entries
    with score [s], so the count "so far" is the count over the whole
    population. *)
Lemma dense_rank_ref_global (lb : LeaderboardService) (i : nat) (l : loc) :
  wf lb → ranking lb !! i = Some l →
  dense_rank_ref (scores lb) i (Score (deref (heap lb) l))
  = 1 + distinct (filter (λ x, Score (deref (heap lb) l) < x) (scores lb)).
Proof.
  intros Hwf Hi. unfold dense_rank_ref.
  rewrite <- (take_drop (S i) (scores lb)) at 2.
  rewrite filter_app, (filter_none _ (drop (S i) (scores lb))), app_nil_r;
    [done|].
  apply Forall_lookup. intros k x Hk. rewrite lookup_drop in Hk.
  unfold scores, scoresOf in Hk. rewrite list_lookup_fmap in Hk.
  destruct (ranking lb !! (S i + k)%nat) as [b|] eqn:Hb; [|done].
  simpl in Hk. injection Hk as <-.
  pose proof (sorted_scores_le (heap lb) (ranking lb) i (S i + k) l b
                (wf_sorted lb Hwf) ltac:(lia) Hi Hb). lia.
Qed.

(** What [GetDenseTopN] returns, entry by entry. *)
Lemma GetDenseTopN_Ret (lb : LeaderboardService) (n : Z)
    (res : list RankInfo) (i : nat) (ri : RankInfo) :
  wf lb → GetDenseTopN lb n = Ret res → res !! i = Some ri →
  ∃ (l : loc) (e : PlayerEntry),
    ranking lb !! i = Some l ∧ heap lb !! l = Some e ∧
    deref (heap lb) l = e ∧
    ri = rankInfo e (dense_rank_ref (scores lb) i (Score e)).
Proof.
  intros Hwf Hres Hi. unfold GetDenseTopN in Hres.
  destruct (make_cap n) as [[]|]; [|done].
  unfold mbind, outcome_bind in Hres. injection Hres as <-. rewrite GetDenseTopN_loop_zip, Z.sub_0_r in Hi.
  apply lookup_zip_with_Some in Hi as (l & d & -> & Hl & Hd).
  apply lookup_take_Some in Hl as [Hl _].
  assert (l ∈ ranking lb) as Hin by (by eapply list_elem_of_lookup_2).
  apply (wf_lt lb l Hwf), lookup_lt_is_Some_2 in Hin as [e He].
  assert (deref (heap lb) l = e) as Hde by (unfold deref; by rewrite He).
  exists l, e. repeat split; try done.
  fold (denseRanks lb) in Hd. rewrite (denseRanks_spec lb i l Hwf Hl) in Hd.
  injection Hd as <-. by rewrite Hde.
Qed.

Lemma GetDenseTopN_rank_wf (lb : LeaderboardService) (n : Z)
    (res : list RankInfo) (i : nat) (ri : RankInfo) :
  wf lb → GetDenseTopN lb n = Ret res → res !! i = Some ri →
  riRank ri = 1 + distinct (filter (λ x, riScore ri < x) (scores lb)).
Proof.
  intros Hwf Hres Hi.
  destruct (GetDenseTopN_Ret lb n res i ri Hwf Hres Hi)
    as (l & e & Hl & He & <- & ->). simpl.
  by apply dense_rank_ref_global.
Qed.

(** X8. The dense rank that [GetDenseTopN] gives to an entry does not
    depend on [n] or on the place of the entry among its ties: on a
    reachable index it is one more than the number of distinct scores
    of the whole population that are strictly greater than the score
    of the entry. *)
Theorem GetDenseTopN_rank_global (lb : LeaderboardService) (n : Z)
    (res : list RankInfo) (i : nat) (ri : RankInfo) :
  reachable lb → GetDenseTopN lb n = Ret res → res !! i = Some ri →
  riRank ri = 1 + distinct (filter (λ x, riScore ri < x) (scores lb)).
Proof.
  intros Hr. apply GetDenseTopN_rank_wf. by apply reachable_wf.
Qed.

Lemma GetDenseTopN_rank_global_witness :
  riRank (mkRankInfo "B" 100 1 2)
  = 1 + distinct (filter (λ x, riScore (mkRankInfo "B" 100 1 2) < x)
                         (scores three_players)).
Proof.
  apply (GetDenseTopN_rank_global three_players 2
           [mkRankInfo "A" 100 1 1; mkRankInfo "B" 100 1 2] 1%nat).
  - exists [("A", 100, 1); ("B", 100, 2); ("C", 90, 3)]. reflexivity.
  - reflexivity.
  - reflexivity.
Defined.

Lemma distinct_above_lt (ss : list Z) (s s' : Z) :
  s ∈ ss → s' < s →
  distinct (filter (λ x, s < x) ss) < distinct (filter (λ x, s' < x) ss).
Proof.
  intros Hin Hlt. unfold distinct.
  assert ({[s]} ∪ list_to_set (filter (λ x, s < x) ss)
          ⊆ (list_to_set (filter (λ x, s' < x) ss) : gset Z)) as Hsub.
  { intros x. rewrite elem_of_union, elem_of_singleton, !elem_of_list_to_set,
      !list_elem_of_filter.
    intros [->|[Hx ?]]; split; try done; lia. }
  apply subseteq_size in Hsub.
  rewrite size_union, size_singleton in Hsub; [lia|].
  apply disjoint_singleton_l.
  rewrite elem_of_list_to_set, list_elem_of_filter. lia.
Qed.

(** X9. Dense ranks separate exactly the scores: two entries of a
    result of [GetDenseTopN] on a reachable index have the same dense
    rank when they have the same score, and the entry with the higher
    score has the strictly smaller dense rank. *)
Theorem GetDenseTopN_rank_by_score (lb : LeaderboardService) (n : Z)
    (res : list RankInfo) (i j : nat) (a b : RankInfo) :
  reachable lb → GetDenseTopN lb n = Ret res →
  res !! i = Some a → res !! j = Some b →
  (riScore a = riScore b → riRank a = riRank b) ∧
  (riScore b < riScore a → riRank a < riRank b).
Proof.
  intros Hr Hres Ha Hb.
  rewrite (GetDenseTopN_rank_wf lb n res i a (reachable_wf lb Hr) Hres Ha).
  rewrite (GetDenseTopN_rank_wf lb n res j b (reachable_wf lb Hr) Hres Hb).
  split; [by intros ->|]. intros Hlt.
  destruct (GetDenseTopN_Ret lb n res i a (reachable_wf lb Hr) Hres Ha)
    as (l & e & Hl & He & _ & ->). simpl in *.
  assert (Score e ∈ scores lb) as Hin.
  { unfold scores, scoresOf. apply list_elem_of_fmap. exists l.
    split; [unfold deref; by rewrite He|by eapply list_elem_of_lookup_2]. }
  pose proof (distinct_above_lt (scores lb) (Score e) (riScore b) Hin Hlt).
  lia.
Qed.

Lemma GetDenseTopN_rank_by_score_witness :
  (riScore (mkRankInfo "B" 100 1 2) = riScore (mkRankInfo "C" 90 2 3) →
   riRank (mkRankInfo "B" 100 1 2) = riRank (mkRankInfo "C" 90 2 3)) ∧
  (riScore (mkRankInfo "C" 90 2 3) < riScore (mkRankInfo "B" 100 1 2) →
   riRank (mkRankInfo "B" 100 1 2) < riRank (mkRankInfo "C" 90 2 3)).
Proof.
  apply (GetDenseTopN_rank_by_score three_players 3
           [mkRankInfo "A" 100 1 1; mkRankInfo "B" 100 1 2;
            mkRankInfo "C" 90 2 3] 1%nat 2%nat).
  - exists [("A", 100, 1); ("B", 100, 2); ("C", 90, 3)]. reflexivity.
  - reflexivity.
  - reflexivity.
  - reflexivity.
Defined.

Lemma dense_loop_steps (h : list PlayerEntry) (n i rank prev : Z)
    (rest : list loc) :
  0 < i →
  let out := GetDenseTopN_loop h n i rank prev rest in
  (∀ b, out !! 0%nat = Some b →
     riRank b = if decide (riScore b = prev) then rank else rank + 1) ∧
  (∀ (k : nat) (a b : RankInfo), out !! k = Some a → out !! S k = Some b →
     riRank b
     = if decide (riScore b = riScore a) then riRank a else riRank a + 1).
Proof.
  revert i rank prev. induction rest as [|e rest IH]; intros i rank prev Hi.
  - split; intros; done.
  - cbn [GetDenseTopN_loop]. destruct (i <? n); [|split; intros; done].
    unfold denseStep. destruct (Z.eqb_spec i 0) as [|_]; [lia|].
    cbn [orb negb].
    destruct (Z.eqb_spec (Score (deref h e)) prev) as [Heq|Hne]; cbn [negb].
    + destruct (IH (i + 1) rank prev ltac:(lia)) as [IH0 IHk].
      split.
      * intros b Hb. injection Hb as <-. simpl. by rewrite decide_True.
      * intros [|k] a b Ha Hb; [|by apply (IHk k)].
        injection Ha as <-. simpl. rewrite Heq. by apply IH0.
    + destruct (IH (i + 1) (rank + 1) (Score (deref h e)) ltac:(lia))
        as [IH0 IHk].
      split.
      * intros b Hb. injection Hb as <-. simpl. by rewrite decide_False.
      * intros [|k] a b Ha Hb; [|by apply (IHk k)].
        injection Ha as <-. simpl. by apply IH0.
Qed.

(** X10. Dense ranks have no gaps: in every result of [GetDenseTopN], on
    any index, the first entry has rank [1], and each later entry has
    the rank of the entry before it when their scores are equal and
    that rank plus one when they differ. *)
Theorem GetDenseTopN_no_gaps (lb : LeaderboardService) (n : Z)
    (res : list RankInfo) :
  GetDenseTopN lb n = Ret res →
  (∀ a, res !! 0%nat = Some a → riRank a = 1) ∧
  (∀ (k : nat) (a b : RankInfo), res !! k = Some a → res !! S k = Some b →
     riRank b
     = if decide (riScore b = riScore a) then riRank a else riRank a + 1).
Proof.
  unfold GetDenseTopN. destruct (make_cap n) as [[]|]; [|done].
  unfold mbind, outcome_bind. intros [= <-].
  destruct (ranking lb) as [|e rest]; [split; intros; done|].
  cbn [GetDenseTopN_loop]. destruct (0 <? n); [|split; intros; done].
  unfold denseStep. cbn [Z.eqb orb negb].
  destruct (dense_loop_steps (heap lb) n (0 + 1) 1
              (Score (deref (heap lb) e)) rest ltac:(lia)) as [H0 Hk].
  split.
  - by intros a [= <-].
  - intros [|k] a b Ha Hb; [|by apply (Hk k)].
    injection Ha as <-. simpl. by apply H0.
Qed.

Lemma GetDenseTopN_no_gaps_witness :
  (∀ a, [mkRankInfo "A" 100 1 1; mkRankInfo "B" 100 1 2;
         mkRankInfo "C" 90 2 3] !! 0%nat = Some a → riRank a = 1) ∧
  (∀ (k : nat) (a b : RankInfo),
     [mkRankInfo "A" 100 1 1; mkRankInfo "B" 100 1 2;
      mkRankInfo "C" 90 2 3] !! k = Some a →
     [mkRankInfo "A" 100 1 1; mkRankInfo "B" 100 1 2;
      mkRankInfo "C" 90 2 3] !! S k = Some b →
     riRank b
     = if decide (riScore b = riScore a) then riRank a else riRank a + 1).
Proof.
  apply (GetDenseTopN_no_gaps three_players 3). reflexivity.
Defined.

(** What [GetTopN] returns, entry by entry. *)
Lemma GetTopN_Ret (lb : LeaderboardService) (n : Z) (res : list RankInfo) :
  wf lb → GetTopN lb n = Ret res →
  0 ≤ n ∧ length res = length (take (Z.to_nat n) (ranking lb)) ∧
  ∀ (i : nat) (ri : RankInfo), res !! i = Some ri →
    ∃ (l : loc) (e : PlayerEntry),
      ranking lb !! i = Some l ∧ heap lb !! l = Some e ∧
      ri = rankInfo e (Z.of_nat i + 1).
Proof.
  intros Hwf Hres. unfold GetTopN in Hres.
  destruct (make_cap n) as [[]|] eqn:Hcap; [|done].
  apply make_cap_inv in Hcap as [Hn _].
  unfold mbind, outcome_bind in Hres. injection Hres as <-.
  rewrite GetTopN_loop_imap, Z.sub_0_r. split; [done|].
  split; [by rewrite length_imap|].
  intros i ri Hi. rewrite list_lookup_imap in Hi.
  destruct (take (Z.to_nat n) (ranking lb) !! i) as [l|] eqn:Hl; [|done].
  simpl in Hi. injection Hi as <-. apply lookup_take_Some in Hl as [Hl _].
  destruct (wf_ranking_entry lb i l Hwf Hl) as (e & He & _).
  exists l, e. split; [done|]. split; [done|]. unfold deref. by rewrite He.
Qed.

(** X11. [GetDenseTopN] and [GetTopN] list the same entries: whenever
    [GetTopN(n)] returns on a reachable index, [GetDenseTopN(n)] returns
    a result of the same length with the same name, score and timestamp
    at every place, and a dense rank between [1] and the standard
    rank. *)
Theorem GetDenseTopN_same_entries (lb : LeaderboardService) (n : Z)
    (rs : list RankInfo) :
  reachable lb → GetTopN lb n = Ret rs →
  ∃ rd : list RankInfo,
    GetDenseTopN lb n = Ret rd ∧ length rd = length rs ∧
    ∀ (i : nat) (a : RankInfo), rs !! i = Some a →
      ∃ b : RankInfo,
        rd !! i = Some b ∧ riPlayerID b = riPlayerID a ∧
        riScore b = riScore a ∧ riTimestamp b = riTimestamp a ∧
        1 ≤ riRank b ≤ riRank a.
Proof.
  intros Hr Hrs. apply reachable_wf in Hr.
  destruct (GetTopN_Ret lb n rs Hr Hrs) as (Hn & Hlen & Hat).
  assert (∃ rd, GetDenseTopN lb n = Ret rd ∧ length rd = length rs)
    as (rd & Hrd & Hlen').
  { unfold GetDenseTopN. unfold GetTopN in Hrs.
    destruct (make_cap n) as [[]|]; [|done].
    unfold mbind, outcome_bind. eexists. split; [done|].
    rewrite GetDenseTopN_loop_zip, Z.sub_0_r, length_zip_with, Hlen.
    rewrite denseRanks_loop_length, length_take. lia. }
  exists rd. split; [done|]. split; [done|]. intros i a Ha.
  destruct (lookup_lt_is_Some_2 rd i) as [b Hb].
  { rewrite Hlen'. by eapply lookup_lt_Some. }
  exists b. split; [done|].
  destruct (Hat i a Ha) as (l & e & Hl & He & ->).
  destruct (GetDenseTopN_Ret lb n rd i b Hr Hrd Hb)
    as (l' & e' & Hl' & He' & _ & ->).
  assert (l' = l) as -> by congruence. assert (e' = e) as -> by congruence.
  simpl. repeat split; try done.
  - apply (dense_rank_ref_bounds (scores lb) i (Score e)).
    unfold scores, scoresOf. rewrite list_lookup_fmap, Hl. simpl.
    unfold deref. by rewrite He.
  - apply (dense_rank_ref_bounds (scores lb) i (Score e)).
    unfold scores, scoresOf. rewrite list_lookup_fmap, Hl. simpl.
    unfold deref. by rewrite He.
Qed.

Lemma GetDenseTopN_same_entries_witness :
  ∃ rd : list RankInfo,
    GetDenseTopN three_players 2 = Ret rd ∧
    length rd = length [mkRankInfo "A" 100 1 1; mkRankInfo "B" 100 2 2] ∧
    ∀ (i : nat) (a : RankInfo),
      [mkRankInfo "A" 100 1 1; mkRankInfo "B" 100 2 2] !! i = Some a →
      ∃ b : RankInfo,
        rd !! i = Some b ∧ riPlayerID b = riPlayerID a ∧
        riScore b = riScore a ∧ riTimestamp b = riTimestamp a ∧
        1 ≤ riRank b ≤ riRank a.
Proof.
  apply (GetDenseTopN_same_entries three_players 2).
  - exists [("A", 100, 1); ("B", 100, 2); ("C", 90, 3)]. reflexivity.
  - reflexivity.
Defined.

(** ** [findDenseRank] *)

Lemma findDenseRank_loop_eq (h : list PlayerEntry) (entry : loc)
    (i rank prev : Z) (rest : list loc) :
  findDenseRank_loop h entry i rank prev rest
  = if decide (entry ∈ rest)
    then playerDenseRank entry rest (denseRanks_loop h i rank prev rest)
    else -1.
Proof.
  revert i rank prev. induction rest as [|e rest IH]; intros i rank prev.
  - cbn [findDenseRank_loop].
    destruct (decide (entry ∈ [])) as [Hin|]; [by apply elem_of_nil in Hin|done].
  - cbn [findDenseRank_loop denseRanks_loop].
    destruct (denseStep _ _ _ _) as [rank' prev'].
    cbn [playerDenseRank]. destruct (decide (e = entry)) as [->|Hne].
    + by rewrite decide_True by (by left).
    + rewrite IH. destruct (decide (entry ∈ rest)) as [Hin|Hnot].
      * by rewrite decide_True by (by right).
      * rewrite decide_False; [done|].
        intros [->|Hin]%elem_of_cons; done.
Qed.

(** X12. [findDenseRank] answers [-1] for a pointer that is not in the
    ordered slice, on any index; for the entry of a known player of a
    reachable index it answers the dense rank that
    [GetPlayerDenseRankRange] centres its band on, which is one more
    than the number of distinct scores of the population above the
    score of the player. *)
Theorem findDenseRank_spec (lb : LeaderboardService) (p : string) (l : loc) :
  (∀ x : loc, x ∉ ranking lb → findDenseRank lb x = -1) ∧
  (reachable lb → players lb !! p = Some l →
   ∃ e : PlayerEntry,
     heap lb !! l = Some e ∧
     findDenseRank lb l = playerDenseRank l (ranking lb) (denseRanks lb) ∧
     findDenseRank lb l
     = 1 + distinct (filter (λ x, Score e < x) (scores lb))).
Proof.
  split.
  - intros x Hx. unfold findDenseRank.
    by rewrite findDenseRank_loop_eq, decide_False.
  - intros Hr Hp. apply reachable_wf in Hr.
    destruct (wf_findRank lb p l Hr Hp) as (pos & _ & Hpos).
    destruct (wf_alloc lb Hr p l Hp) as (e & He & _).
    assert (deref (heap lb) l = e) as Hd by (unfold deref; by rewrite He).
    exists e. split; [done|].
    assert (findDenseRank lb l
            = playerDenseRank l (ranking lb) (denseRanks lb)) as Heq.
    { unfold findDenseRank. rewrite findDenseRank_loop_eq, decide_True; [done|].
      by eapply list_elem_of_lookup_2. }
    split; [done|]. rewrite Heq.
    rewrite (playerDenseRank_lookup l (ranking lb) (denseRanks lb) pos
               (dense_rank_ref (scores lb) pos (Score e)));
      [|by apply wf_NoDup|done|by rewrite (denseRanks_spec lb pos l), Hd].
    rewrite <- Hd. by apply dense_rank_ref_global.
Qed.

Lemma findDenseRank_spec_witness :
  (∀ x : loc, x ∉ ranking three_players → findDenseRank three_players x = -1) ∧
  ∃ e : PlayerEntry,
    heap three_players !! 2%nat = Some e ∧
    findDenseRank three_players 2%nat
    = playerDenseRank 2%nat (ranking three_players)
        (denseRanks three_players) ∧
    findDenseRank three_players 2%nat
    = 1 + distinct (filter (λ x, Score e < x) (scores three_players)).
Proof.
  destruct (findDenseRank_spec three_players "C" 2%nat) as [Habsent Hknown].
  split; [exact Habsent|]. apply Hknown.
  - exists [("A", 100, 1); ("B", 100, 2); ("C", 90, 3)]. reflexivity.
  - reflexivity.
Defined.

(** ** The ranges on the rng they handle *)

Lemma window_length (lb : LeaderboardService) (pos : nat) (rng : Z) :
  0 ≤ rng → (pos < length (ranking lb))%nat →
  1 ≤ Z.of_nat (length (window lb pos rng)) ≤ 2 * rng + 1.
Proof.
  intros Hrng Hpos. unfold window.
  rewrite length_imap, length_take, length_drop.
  unfold window_lo, window_hi. lia.
Qed.

(** X13. For [0 <= rng <= max_int - size], and a window no longer than
    the largest capacity [make] accepts (the smaller of [size] and
    [2*rng+1] bounds it), [GetPlayerRankRange] on a reachable index
    returns for a known player the clipped window around its place
    [pos]: the entries of the places [max 0 (pos - rng)] to
    [min (size - 1) (pos + rng)] with their standard ranks, at least
    one and at most [2*rng+1] of them, among which the entry of the
    player itself exactly once. *)
Theorem GetPlayerRankRange_in_range (lb : LeaderboardService) (p : string)
    (l : loc) (rng : Z) :
  reachable lb → players lb !! p = Some l →
  0 ≤ rng → Z.of_nat (length (ranking lb)) + rng ≤ max_int →
  Z.min (Z.of_nat (length (ranking lb))) (2 * rng + 1) ≤ max_cap →
  ∃ pos : nat,
    ranking lb !! pos = Some l ∧
    GetPlayerRankRange lb p rng = Ret (Slice (window lb pos rng)) ∧
    1 ≤ Z.of_nat (length (window lb pos rng)) ≤ 2 * rng + 1 ∧
    ∃ (i : nat) (ri : RankInfo),
      window lb pos rng !! i = Some ri ∧ riPlayerID ri = p ∧
      riRank ri = Z.of_nat pos + 1 ∧
      ∀ (j : nat) (rj : RankInfo),
        window lb pos rng !! j = Some rj → riPlayerID rj = p → j = i.
Proof.
  intros Hr Hp Hrng Hmax Hcap. apply reachable_wf in Hr.
  destruct (GetPlayerRankRange_window lb p l rng Hr Hp Hrng Hmax Hcap)
    as (pos & Hpos & Hres).
  exists pos. split; [done|]. split; [done|]. split.
  - apply window_length; [done|]. by eapply lookup_lt_Some.
  - by apply (window_self lb p l).
Qed.

Lemma GetPlayerRankRange_in_range_witness :
  ∃ pos : nat,
    ranking three_players !! pos = Some 1%nat ∧
    GetPlayerRankRange three_players "B" 5
    = Ret (Slice (window three_players pos 5)) ∧
    1 ≤ Z.of_nat (length (window three_players pos 5)) ≤ 2 * 5 + 1 ∧
    ∃ (i : nat) (ri : RankInfo),
      window three_players pos 5 !! i = Some ri ∧ riPlayerID ri = "B" ∧
      riRank ri = Z.of_nat pos + 1 ∧
      ∀ (j : nat) (rj : RankInfo),
        window three_players pos 5 !! j = Some rj → riPlayerID rj = "B" →
        j = i.
Proof.
  apply (GetPlayerRankRange_in_range three_players "B" 1%nat 5).
  - exists [("A", 100, 1); ("B", 100, 2); ("C", 90, 3)]. reflexivity.
  - reflexivity.
  - lia.
  - vm_compute. discriminate.
  - vm_compute. discriminate.
Defined.

(** The dense rank of an entry as a function of its score alone. *)
Lemma denseRanks_by_score (lb : LeaderboardService) :
  wf lb →
  denseRanks lb
  = (λ x, 1 + distinct (filter (λ y, Score (deref (heap lb) x) < y)
                               (scores lb))) <$> ranking lb.
Proof.
  intros Hwf. apply list_eq. intros i. rewrite list_lookup_fmap.
  destruct (ranking lb !! i) as [x|] eqn:Hx; simpl.
  - rewrite (denseRanks_spec lb i x Hwf Hx). f_equal.
    by apply dense_rank_ref_global.
  - apply lookup_ge_None. apply lookup_ge_None in Hx.
    unfold denseRanks. by rewrite denseRanks_loop_length.
Qed.

Lemma zip_fmap_self {A B} (g : A → B) (l : list A) :
  zip l (g <$> l) = (λ x, (x, g x)) <$> l.
Proof.
  induction l as [|x l IH]; [done|].
  cbn [fmap list_fmap zip zip_with]. f_equal. exact IH.
Qed.

Lemma filter_fmap_comm {A B} (f : A → B) (P : B → Prop)
    `{∀ y, Decision (P y)} (l : list A) :
  filter P (f <$> l) = f <$> filter (λ x, P (f x)) l.
Proof.
  induction l as [|x l IH]; [done|]. cbn [fmap list_fmap].
  rewrite !filter_cons, IH. by destruct (decide (P (f x))).
Qed.

Lemma filter_ext_in {A} (P Q : A → Prop) `{∀ x, Decision (P x)}
    `{∀ x, Decision (Q x)} (l : list A) :
  (∀ x, x ∈ l → P x ↔ Q x) → filter P l = filter Q l.
Proof.
  induction l as [|x l IH]; intros Hext; [done|].
  rewrite !filter_cons, IH by (intros y Hy; apply Hext; by right).
  pose proof (Hext x ltac:(by left)) as Hx.
  destruct (decide (P x)), (decide (Q x)); try done; tauto.
Qed.

(** The entries of a result of [GetPlayerDenseRankRange]. *)
Lemma GetPlayerDenseRankRange_Ret (lb : LeaderboardService) (p : string)
    (rng : Z) (res : list RankInfo) :
  wf lb → GetPlayerDenseRankRange lb p rng = Ret (Slice res) →
  ∃ (l : loc) (lo hi : Z),
    players lb !! p = Some l ∧
    res = (λ x, rankInfo (deref (heap lb) x)
                  (1 + distinct (filter (λ y, Score (deref (heap lb) x) < y)
                                        (scores lb)))) <$>
            filter (λ x, lo ≤ 1 + distinct (filter
                           (λ y, Score (deref (heap lb) x) < y) (scores lb))
                         ≤ hi)
                   (ranking lb) ∧
    lo = wrap (playerDenseRank l (ranking lb) (denseRanks lb) - rng) ∧
    hi = wrap (playerDenseRank l (ranking lb) (denseRanks lb) + rng).
Proof.
  intros Hwf Hres. unfold GetPlayerDenseRankRange in Hres.
  destruct (players lb !! p) as [l|]; [|done].
  unfold mbind, outcome_bind in Hres.
  destruct (make_cap _) as [[]|]; [|done]. injection Hres as <-.
  exists l, (wrap (playerDenseRank l (ranking lb) (denseRanks lb) - rng)),
    (wrap (playerDenseRank l (ranking lb) (denseRanks lb) + rng)).
  split; [done|]. split; [|done].
  generalize (wrap (playerDenseRank l (ranking lb) (denseRanks lb) - rng))
    (wrap (playerDenseRank l (ranking lb) (denseRanks lb) + rng)).
  intros lo hi.
  rewrite band_loop_filter, (denseRanks_by_score lb Hwf), zip_fmap_self.
  by rewrite filter_fmap_comm, <- list_fmap_compose.
Qed.

(** X14. Every entry of a result of [GetPlayerDenseRankRange], for
    whatever [rng] the call returns on a reachable index, carries the
    dense rank of its own score over the whole population, the name of
    a known player and that player's current score; the entries follow
    the order of the slice, so no player occurs twice. *)
Theorem GetPlayerDenseRankRange_entries (lb : LeaderboardService)
    (p : string) (rng : Z) (res : list RankInfo) :
  reachable lb → GetPlayerDenseRankRange lb p rng = Ret (Slice res) →
  NoDup (riPlayerID <$> res) ∧
  ∀ ri : RankInfo, ri ∈ res →
    riRank ri = 1 + distinct (filter (λ y, riScore ri < y) (scores lb)) ∧
    (λ r, (riScore r, riTimestamp r)) <$> GetPlayerRank lb (riPlayerID ri)
    = Some (riScore ri, riTimestamp ri).
Proof.
  intros Hr Hres. apply reachable_wf in Hr.
  destruct (GetPlayerDenseRankRange_Ret lb p rng res Hr Hres)
    as (l & lo & hi & _ & -> & _ & _).
  split.
  - rewrite <- list_fmap_compose.
    apply (NoDup_fmap_2_strong _ (filter _ (ranking lb)));
      [|apply NoDup_filter; by apply wf_NoDup].
    intros x y [_ Hx]%list_elem_of_filter [_ Hy]%list_elem_of_filter Heq.
    simpl in Heq.
    apply (wf_elem lb x Hr) in Hx as (q & Hq).
    apply (wf_elem lb y Hr) in Hy as (q' & Hq').
    rewrite (wf_deref lb q x Hr Hq), (wf_deref lb q' y Hr Hq') in Heq.
    congruence.
  - intros ri (x & -> & [_ Hx]%list_elem_of_filter)%list_elem_of_fmap.
    simpl. split; [done|].
    apply list_elem_of_lookup in Hx as (i & Hi).
    by rewrite (GetPlayerRank_at lb i x Hr Hi).
Qed.

Lemma GetPlayerDenseRankRange_entries_witness :
  NoDup (riPlayerID <$> [mkRankInfo "A" 100 1 1; mkRankInfo "B" 100 1 2]) ∧
  ∀ ri : RankInfo, ri ∈ [mkRankInfo "A" 100 1 1; mkRankInfo "B" 100 1 2] →
    riRank ri
    = 1 + distinct (filter (λ y, riScore ri < y) (scores three_players)) ∧
    (λ r, (riScore r, riTimestamp r))
      <$> GetPlayerRank three_players (riPlayerID ri)
    = Some (riScore ri, riTimestamp ri).
Proof.
  apply (GetPlayerDenseRankRange_entries three_players "A" 0).
  - exists [("A", 100, 1); ("B", 100, 2); ("C", 90, 3)]. reflexivity.
  - reflexivity.
Defined.

(** X15. With [rng = 0], [GetPlayerDenseRankRange] on a reachable index
    returns for a known player exactly the players tied with it: the
    entries of the slice whose score is the score of the player, in the
    order of the slice, all with the dense rank of the player.  Their
    number is not bounded by [2*rng+1 = 1]. *)
Theorem GetPlayerDenseRankRange_ties (lb : LeaderboardService) (p : string)
    (l : loc) :
  reachable lb → players lb !! p = Some l →
  Z.of_nat (length (ranking lb)) ≤ max_int →
  ∃ e : PlayerEntry,
    heap lb !! l = Some e ∧
    GetPlayerDenseRankRange lb p 0
    = Ret (Slice ((λ x, rankInfo (deref (heap lb) x)
                          (1 + distinct (filter (λ y, Score e < y)
                                                (scores lb)))) <$>
                    filter (λ x, Score (deref (heap lb) x) = Score e)
                           (ranking lb))).
Proof.
  intros Hr Hp Hmax. apply reachable_wf in Hr.
  destruct (GetPlayerDenseRankRange_band lb p l 0 Hr Hp ltac:(lia)
              ltac:(rewrite max_cap_val; lia) ltac:(lia))
    as (pos & e & Hpos & He & Hres).
  exists e. split; [done|].
  assert (deref (heap lb) l = e) as Hd by (unfold deref; by rewrite He).
  destruct (GetPlayerDenseRankRange_Ret lb p 0 _ Hr Hres)
    as (l' & lo & hi & Hp' & Hband & -> & ->).
  assert (l' = l) as -> by congruence.
  rewrite Hres, Hband. clear Hres Hband. do 2 f_equal.
  assert (∀ x, x ∈ ranking lb →
            Score (deref (heap lb) x) ∈ scores lb) as Hin.
  { intros x Hx. unfold scores, scoresOf. apply list_elem_of_fmap. eauto. }
  assert (Score e ∈ scores lb) as Hine.
  { rewrite <- Hd. apply Hin. by eapply list_elem_of_lookup_2. }
  set (d := λ s, 1 + distinct (filter (λ y, s < y) (scores lb))).
  assert (playerDenseRank l (ranking lb) (denseRanks lb) = d (Score e)) as ->.
  { rewrite (playerDenseRank_lookup l (ranking lb) (denseRanks lb) pos
               (dense_rank_ref (scores lb) pos (Score e)));
      [|by apply wf_NoDup|done|by rewrite (denseRanks_spec lb pos l), Hd].
    rewrite <- Hd. by apply dense_rank_ref_global. }
  rewrite Z.sub_0_r, Z.add_0_r, wrap_id.
  2:{ pose proof (distinct_le_length (filter (λ y, Score e < y) (scores lb)))
        as H1.
      pose proof (length_filter_lt (λ y, Score e < y) (scores lb) (Score e)
                    Hine ltac:(cbv beta; lia)) as H2.
      assert (length (scores lb) = length (ranking lb)) as H3
        by (unfold scores, scoresOf; by rewrite length_fmap).
      unfold d, distinct, min_int, max_int in *. lia. }
  assert (∀ x, x ∈ ranking lb →
            d (Score e) ≤ d (Score (deref (heap lb) x)) ≤ d (Score e)
            ↔ Score (deref (heap lb) x) = Score e) as Hiff.
  { intros x Hx. split; [|by intros ->]. intros Hdx.
    destruct (Z.lt_trichotomy (Score (deref (heap lb) x)) (Score e))
      as [Hlt|[Heq|Hgt]]; [|done|].
    - pose proof (distinct_above_lt (scores lb) _ _ Hine Hlt).
      unfold d in Hdx. lia.
    - pose proof (distinct_above_lt (scores lb) _ _ (Hin x Hx) Hgt).
      unfold d in Hdx. lia. }
  rewrite (filter_ext_in _ (λ x, Score (deref (heap lb) x) = Score e)
             (ranking lb) Hiff).
  apply list_fmap_ext. intros i x Hx.
  apply list_elem_of_lookup_2, list_elem_of_filter in Hx as [-> _]. done.
Qed.

Lemma GetPlayerDenseRankRange_ties_witness :
  ∃ e : PlayerEntry,
    heap three_players !! 0%nat = Some e ∧
    GetPlayerDenseRankRange three_players "A" 0
    = Ret (Slice ((λ x, rankInfo (deref (heap three_players) x)
                          (1 + distinct (filter (λ y, Score e < y)
                                                (scores three_players)))) <$>
                    filter (λ x, Score (deref (heap three_players) x)
                                 = Score e)
                           (ranking three_players))).
Proof.
  apply (GetPlayerDenseRankRange_ties three_players "A" 0%nat).
  - exists [("A", 100, 1); ("B", 100, 2); ("C", 90, 3)]. reflexivity.
  - reflexivity.
  - vm_compute. discriminate.
Defined.

(** X16. For [0 <= rng] with the capacity [2*rng+1] at most the
    largest [make] accepts and [size + rng] within [int],
    [GetPlayerDenseRankRange] on a reachable index returns for a known
    player the band of the dense ranks [d - rng] to [d + rng] around its
    own dense rank [d], and that band holds an entry with the name of
    the player and the rank [d]. *)
Theorem GetPlayerDenseRankRange_in_range (lb : LeaderboardService)
    (p : string) (l : loc) (rng : Z) :
  reachable lb → players lb !! p = Some l →
  0 ≤ rng → 2 * rng + 1 ≤ max_cap →
  Z.of_nat (length (ranking lb)) + rng ≤ max_int →
  ∃ (pos : nat) (e : PlayerEntry) (d : Z),
    ranking lb !! pos = Some l ∧ heap lb !! l = Some e ∧
    d = dense_rank_ref (scores lb) pos (Score e) ∧
    GetPlayerDenseRankRange lb p rng = Ret (Slice (dense_band lb d rng)) ∧
    ∃ ri : RankInfo,
      ri ∈ dense_band lb d rng ∧ riPlayerID ri = p ∧ riRank ri = d.
Proof.
  intros Hr Hp Hrng Hcap Hmax. apply reachable_wf in Hr.
  destruct (GetPlayerDenseRankRange_band lb p l rng Hr Hp Hrng Hcap Hmax)
    as (pos & e & Hpos & He & Hres).
  exists pos, e, (dense_rank_ref (scores lb) pos (Score e)).
  repeat split; try done. by apply (dense_band_self lb p l pos e rng).
Qed.

Lemma GetPlayerDenseRankRange_in_range_witness :
  ∃ (pos : nat) (e : PlayerEntry) (d : Z),
    ranking three_players !! pos = Some 2%nat ∧
    heap three_players !! 2%nat = Some e ∧
    d = dense_rank_ref (scores three_players) pos (Score e) ∧
    GetPlayerDenseRankRange three_players "C" 1
    = Ret (Slice (dense_band three_players d 1)) ∧
    ∃ ri : RankInfo,
      ri ∈ dense_band three_players d 1 ∧ riPlayerID ri = "C" ∧
      riRank ri = d.
Proof.
  apply (GetPlayerDenseRankRange_in_range three_players "C" 2%nat 1).
  - exists [("A", 100, 1); ("B", 100, 2); ("C", 90, 3)]. reflexivity.
  - reflexivity.
  - lia.
  - vm_compute. discriminate.
  - vm_compute. discriminate.
Defined.

(** X17. A negative [rng] is not clipped: for a known player of a
    reachable index and [-2^62 <= rng < 0], both range queries panic on
    the negative capacity they ask of [make], instead of returning an
    empty window. *)
Theorem range_queries_negative_rng (lb : LeaderboardService) (p : string)
    (l : loc) (rng : Z) :
  reachable lb → players lb !! p = Some l →
  - 2 ^ 62 ≤ rng < 0 → Z.of_nat (length (ranking lb)) - rng ≤ max_int →
  GetPlayerRankRange lb p rng = Panic ∧
  GetPlayerDenseRankRange lb p rng = Panic.
Proof.
  intros Hr Hp Hrng Hmax. apply reachable_wf in Hr. split.
  - by apply (GetPlayerRankRange_negative lb p l).
  - by apply (GetPlayerDenseRankRange_negative lb p l).
Qed.

Lemma range_queries_negative_rng_witness :
  GetPlayerRankRange three_players "A" (-3) = Panic ∧
  GetPlayerDenseRankRange three_players "A" (-3) = Panic.
Proof.
  apply (range_queries_negative_rng three_players "A" 0%nat (-3)).
  - exists [("A", 100, 1); ("B", 100, 2); ("C", 90, 3)]. reflexivity.
  - reflexivity.
  - lia.
  - vm_compute. discriminate.
Defined.

(** X18. For every [n] from [0] to the largest capacity [make]
    accepts, [GetTopN(n)] on a reachable index returns without a panic
    the first [min n size] entries of the ordered slice, the entry of
    place [i] with the standard rank [i + 1]; for [n = 0] the result is
    empty, and an [n] above the population size is no error within that
    range. *)
Theorem GetTopN_nonneg (lb : LeaderboardService) (n : Z) :
  reachable lb → 0 ≤ n ≤ max_cap →
  ∃ res : list RankInfo,
    GetTopN lb n = Ret res ∧
    Z.of_nat (length res) = Z.min n (Z.of_nat (length (ranking lb))) ∧
    (n = 0 → res = []) ∧
    ∀ (i : nat) (ri : RankInfo), res !! i = Some ri →
      ∃ (l : loc) (e : PlayerEntry),
        ranking lb !! i = Some l ∧ heap lb !! l = Some e ∧
        ri = rankInfo e (Z.of_nat i + 1).
Proof. intros Hr Hn. apply GetTopN_prefix; [by apply reachable_wf|done]. Qed.

Lemma GetTopN_nonneg_witness :
  ∃ res : list RankInfo,
    GetTopN three_players 2 = Ret res ∧
    Z.of_nat (length res)
    = Z.min 2 (Z.of_nat (length (ranking three_players))) ∧
    (2 = 0 → res = []) ∧
    ∀ (i : nat) (ri : RankInfo), res !! i = Some ri →
      ∃ (l : loc) (e : PlayerEntry),
        ranking three_players !! i = Some l ∧
        heap three_players !! l = Some e ∧
        ri = rankInfo e (Z.of_nat i + 1).
Proof.
  apply (GetTopN_nonneg three_players 2).
  - exists [("A", 100, 1); ("B", 100, 2); ("C", 90, 3)]. reflexivity.
  - rewrite max_cap_val. lia.
Defined.

(** ** The helpers of [UpdateScore] *)

Lemma findRank_from_notin (i : Z) (l : loc) (r : list loc) :
  l ∉ r → findRank_from i l r = -1.
Proof.
  revert i. induction r as [|e r IH]; intros i Hnot; [done|]. simpl.
  rewrite decide_False by (intros ->; apply Hnot; by left).
  apply IH. intros Hin. apply Hnot. by right.
Qed.

(** X19. [findRank] and [removeFromRanking] look for the same place, on
    any index: for a pointer that is not in the slice [findRank] answers
    [-1] and [removeFromRanking] changes nothing; otherwise [findRank]
    answers the first place [i] that holds the pointer and
    [removeFromRanking] deletes exactly that place. *)
Theorem removeFromRanking_findRank (lb : LeaderboardService) (entry : loc) :
  (entry ∉ ranking lb →
     findRank lb entry = -1 ∧
     removeFromRanking entry (ranking lb) = ranking lb) ∧
  (entry ∈ ranking lb →
     ∃ i : nat,
       findRank lb entry = Z.of_nat i ∧ ranking lb !! i = Some entry ∧
       (∀ j : nat, (j < i)%nat → ranking lb !! j ≠ Some entry) ∧
       removeFromRanking entry (ranking lb) = delete i (ranking lb)).
Proof.
  unfold findRank. split.
  - intros Hnot. split; [by apply findRank_from_notin|by apply remove_notin].
  - intros Hin.
    apply list_elem_of_split_l in Hin as (r1 & r2 & Hr & Hnot).
    rewrite Hr. exists (length r1). split; [|split; [|split]].
    + rewrite findRank_from_middle by done. lia.
    + by apply list_lookup_middle.
    + intros j Hj Hlook. rewrite lookup_app_l in Hlook by done.
      apply Hnot. by eapply list_elem_of_lookup_2.
    + by rewrite remove_middle, delete_middle.
Qed.

(** X20. [insertToRanking] on a sorted slice, whatever the index:
    store and map are untouched, the new slice is sorted and holds the
    old entries and [entry] once more; when [entry] was not in the
    slice, [removeFromRanking] takes the insertion back. *)
Theorem insertToRanking_sorted (lb : LeaderboardService) (entry : loc) :
  sorted (heap lb) (ranking lb) →
  let lb' := insertToRanking lb entry in
  heap lb' = heap lb ∧ players lb' = players lb ∧
  sorted (heap lb') (ranking lb') ∧
  ranking lb' ≡ₚ entry :: ranking lb ∧
  (entry ∉ ranking lb →
     removeFromRanking entry (ranking lb') = ranking lb).
Proof.
  intros Hs lb'. subst lb'. unfold insertToRanking. simpl.
  split; [done|]. split; [done|]. split; [by apply insert_sorted|].
  split; [apply insertAt_perm|]. intros Hnot. by apply remove_insertAt.
Qed.

Lemma insertToRanking_sorted_witness :
  let lb' := insertToRanking third_unranked 2%nat in
  heap lb' = heap third_unranked ∧ players lb' = players third_unranked ∧
  sorted (heap lb') (ranking lb') ∧
  ranking lb' ≡ₚ 2%nat :: ranking third_unranked ∧
  (2%nat ∉ ranking third_unranked →
     removeFromRanking 2%nat (ranking lb') = ranking third_unranked).
Proof.
  apply (insertToRanking_sorted third_unranked 2%nat).
  unfold sorted, third_unranked. simpl. repeat constructor.
Defined.

(** X21. Entries are made once and then written in place: an
    [UpdateScore] on a reachable index keeps the pointer of every known
    player, the updated one included; for a known [p] it allocates
    nothing and the population keeps its size, for a new [p] the store
    and the population grow by one. *)
Theorem UpdateScore_in_place (lb : LeaderboardService) (p : string)
    (s t : Z) :
  reachable lb →
  let lb' := UpdateScore lb p s t in
  (∀ q l, players lb !! q = Some l → players lb' !! q = Some l) ∧
  (is_Some (players lb !! p) →
     length (heap lb') = length (heap lb) ∧
     length (ranking lb') = length (ranking lb)) ∧
  (players lb !! p = None →
     length (heap lb') = S (length (heap lb)) ∧
     length (ranking lb') = S (length (ranking lb))).
Proof.
  intros Hr lb'. apply reachable_wf in Hr. subst lb'. unfold UpdateScore.
  destruct (players lb !! p) as [l|] eqn:Hp; unfold insertToRanking; simpl.
  - split; [done|]. split; [|done]. intros _.
    rewrite length_alter, insertAt_length. split; [done|].
    assert (l ∈ ranking lb) as Hin by (apply wf_elem; eauto).
    by rewrite <- (remove_perm l (ranking lb) Hin) at 2.
  - split; [|split].
    + intros q l Hq. rewrite lookup_insert_ne; [done|]. congruence.
    + by intros [? ?].
    + intros _. rewrite length_app, insertAt_length. simpl. lia.
Qed.

Lemma UpdateScore_in_place_witness :
  let lb' := UpdateScore three_players "D" 95 4 in
  (∀ q l, players three_players !! q = Some l → players lb' !! q = Some l) ∧
  (is_Some (players three_players !! "D") →
     length (heap lb') = length (heap three_players) ∧
     length (ranking lb') = length (ranking three_players)) ∧
  (players three_players !! "D" = None →
     length (heap lb') = S (length (heap three_players)) ∧
     length (ranking lb') = S (length (ranking three_players))).
Proof.
  apply (UpdateScore_in_place three_players "D" 95 4).
  exists [("A", 100, 1); ("B", 100, 2); ("C", 90, 3)]. reflexivity.
Defined.
